(** * VanillaJS utilities: debounce, throttle, isEmpty, mergeObjects

    A shallow embedding of the utility functions of the VanillaJS library
    (README-v1-deprecated.md, "Utils" namespace) and of the part of the
    JavaScript host they rely on: the timer queue behind [setTimeout] and
    [clearTimeout], the clock read by [Date.now()], and a store of plain
    objects for [isEmpty] and [mergeObjects]. *)

From stdpp Require Import list strings pretty.

Local Open Scope Z_scope.

(** ** Callbacks, outcomes and the execution log *)

(** A JavaScript call either returns or throws. *)
Inductive outcome (E : Type) : Type :=
| Returned
| Threw (e : E).
Arguments Returned {E}.
Arguments Threw {E} e.

(** Where the user callback was invoked from: in the body of the wrapped
    function itself, or in the arrow function handed to [setTimeout]. *)
Inductive origin : Type := Direct | Scheduled.

(** One execution of the user callback: the clock value at which it ran,
    the argument list it received and the place it was invoked from. *)
Record exec (A : Type) : Type := Exec {
  ex_time : Z;
  ex_args : A;
  ex_from : origin
}.
Arguments Exec {A} _ _ _.
Arguments ex_time {A} _.
Arguments ex_args {A} _.
Arguments ex_from {A} _.

(** ** The host's timers

    [setTimeout(cb, d)] registers [cb] and returns a fresh handle.  The
    host converts the delay [d] to a signed 32-bit integer (so a delay of
    2^31 becomes negative) and takes a negative delay for 0; [cb] is due
    once that many milliseconds have passed.  [clearTimeout(h)] drops the
    timer with handle [h] and does nothing for [undefined] or for a handle
    that is no longer pending.  A timer callback is represented by the
    variables its closure captures (type [B]). *)
Module Host.
Section Host.
Context {B : Type}.

Record timer : Type := Timer {
  t_id : nat;
  t_due : Z;
  t_body : B
}.

Record host : Type := MkHost {
  next_id : nat;
  pending : list timer
}.

Definition empty : host := MkHost 1%nat [].

(** The conversion of a whole number to a signed 32-bit integer: the
    number modulo 2^32 that lies between -2^31 and 2^31 - 1. *)
Definition to_int32 (d : Z) : Z :=
  (d + 2147483648) mod 4294967296 - 2147483648.

Definition setTimeout (body : B) (delay now : Z) (h : host) : nat * host :=
  (next_id h,
   MkHost (S (next_id h))
          (pending h
           ++ [Timer (next_id h) (now + Z.max 0 (to_int32 delay)) body])).

Definition drop (i : nat) (l : list timer) : list timer :=
  List.filter (fun tm => negb (Nat.eqb (t_id tm) i)) l.

Definition clearTimeout (handle : option nat) (h : host) : host :=
  match handle with
  | None => h
  | Some i => MkHost (next_id h) (drop i (pending h))
  end.

(** The pending timer that is due first; timers due at the same instant
    run in the order they were created. *)
Fixpoint earliest (l : list timer) : option timer :=
  match l with
  | [] => None
  | tm :: l' =>
      match earliest l' with
      | Some tm' => if t_due tm' <? t_due tm then Some tm' else Some tm
      | None => Some tm
      end
  end.

(** The next timer the event loop may run when the clock has reached
    [bound] ([None]: the clock is left to run as far as needed). *)
Definition next_due (bound : option Z) (h : host) : option timer :=
  match earliest (pending h) with
  | Some tm =>
      match bound with
      | Some t => if t_due tm <=? t then Some tm else None
      | None => Some tm
      end
  | None => None
  end.

(** Taking a timer off the queue, as the host does just before it runs
    the timer's callback. *)
Definition take (tm : timer) (h : host) : host :=
  MkHost (next_id h) (drop (t_id tm) (pending h)).
End Host.
Arguments timer B : clear implicits.
Arguments host B : clear implicits.
Arguments to_int32 : simpl never.
End Host.

(** ** Wrapper instances and the event loop *)
Section Loop.
Context {A E S B : Type}.

(** Everything one wrapper instance can see or change: its closure
    variables, the host's timers and the executions of the callback so
    far. *)
Record world : Type := World {
  inst : S;
  timers : Host.host B;
  log : list (exec A)
}.

(** Sequencing of two statements: the second is skipped when the first
    throws. *)
Definition andThen (m : world * outcome E) (k : world -> world * outcome E)
  : world * outcome E :=
  match m with
  | (w, Returned) => k w
  | (w, Threw e) => (w, Threw e)
  end.

(** [func(...args)] at clock value [t]. *)
Definition invoke (func : A -> outcome E) (t : Z) (from : origin) (args : A)
    (w : world) : world * outcome E :=
  (World (inst w) (timers w) (log w ++ [Exec t args from]), func args).

(** A wrapper instance: the initial closure variables, the body of the
    wrapped function (run at clock value [now] with [args]) and the body
    of the timer callbacks it creates (run by the host at the clock value
    given). *)
Record wrapper : Type := Wrapper {
  w_init : S;
  w_call : Z -> A -> world -> world * outcome E;
  w_fire : Z -> B -> world -> world * outcome E
}.

Variable W : wrapper.

Definition init_world : world := World (w_init W) Host.empty [].

(** The host runs one timer: it leaves the queue, then its callback
    runs. *)
Definition fire_timer (tm : Host.timer B) (w : world) : world * outcome E :=
  w_fire W (Host.t_due tm) (Host.t_body tm)
    (World (inst w) (Host.take tm (timers w)) (log w)).

(** The host runs the timers that are due, earliest first.  An exception
    escaping a timer callback is reported by the host and the loop goes
    on. *)
Fixpoint run_timers (fuel : nat) (bound : option Z) (w : world) : world :=
  match fuel with
  | O => w
  | Datatypes.S fuel' =>
      match Host.next_due bound (timers w) with
      | Some tm => run_timers fuel' bound (fst (fire_timer tm w))
      | None => w
      end
  end.

Definition advance (t : Z) (w : world) : world :=
  run_timers (length (Host.pending (timers w))) (Some t) w.

Definition flush (w : world) : world :=
  run_timers (length (Host.pending (timers w))) None w.

(** A timed sequence of calls with a punctual host.  Each call is a task
    of its own; timers due by the time of a call have run before it, each
    at the clock value at which it was due.  (Schedules in which the host
    is late are played by [play], below.) *)
Fixpoint run_calls (cs : list (Z * A)) (w : world) : world :=
  match cs with
  | [] => w
  | (now, args) :: cs' =>
      run_calls cs' (fst (w_call W now args (advance now w)))
  end.

(** The calls [cs] on a new instance, then every timer left. *)
Definition run (cs : list (Z * A)) : world := flush (run_calls cs init_world).

Definition executions (cs : list (Z * A)) : list (exec A) := log (run cs).

(** The states an instance can be in, whatever the clock reads at each
    call and whenever and in whatever order the host runs the timers. *)
Inductive reachable : world -> Prop :=
| reach_init : reachable init_world
| reach_call w now args :
    reachable w -> reachable (fst (w_call W now args w))
| reach_fire w tm :
    reachable w -> In tm (Host.pending (timers w)) ->
    reachable (fst (fire_timer tm w)).
End Loop.
Arguments world A S B : clear implicits.
Arguments wrapper A E S B : clear implicits.

(** ** Schedules

    The host need not be punctual: it may run a timer later than the timer
    is due, and a call may be made before a timer that is due has run (its
    [clearTimeout] then cancels that timer).  A schedule lists what happens
    to an instance, in the order it happens: the calls made, with the
    clock value read by each, and the moments at which the host runs a
    timer. *)
Inductive event (A : Type) : Type :=
| Called (now : Z) (args : A)
| TimerRun (t : Z).
Arguments Called {A} now args.
Arguments TimerRun {A} t.

Section Schedule.
Context {A E S B : Type}.
Variable W : wrapper A E S B.

(** The host runs a timer when the clock reads [t]: the pending timer
    that is due first, if it is due by then; the timer leaves the queue
    and its callback runs at clock value [t].  Nothing happens when no
    timer is due. *)
Definition run_timer_at (t : Z) (w : world A S B) : world A S B :=
  match Host.next_due (Some t) (timers w) with
  | Some tm =>
      (w_fire W t (Host.t_body tm)
         (World (inst w) (Host.take tm (timers w)) (log w))).1
  | None => w
  end.

Fixpoint play (evs : list (event A)) (w : world A S B) : world A S B :=
  match evs with
  | [] => w
  | Called now args :: evs' => play evs' (w_call W now args w).1
  | TimerRun t :: evs' => play evs' (run_timer_at t w)
  end.
End Schedule.

(** ** debounce *)
Module Debounce.
Section Debounce.
Context {A E : Type}.
Variable func : A -> outcome E.
Variable delay : Z.

(** [let timeout;] *)
Record vars : Type := Vars { timeout : option nat }.

(** [(...args) => { clearTimeout(timeout);
                    timeout = setTimeout(() => func(...args), delay); }] *)
Definition wrapped (now : Z) (args : A) (w : world A vars A)
  : world A vars A * outcome E :=
  let h1 := Host.clearTimeout (timeout (inst w)) (timers w) in
  let '(id, h2) := Host.setTimeout args delay now h1 in
  (World (Vars (Some id)) h2 (log w), Returned).

(** [() => func(...args)] *)
Definition fire (t : Z) (args : A) (w : world A vars A)
  : world A vars A * outcome E :=
  invoke func t Scheduled args w.

Definition debounce : wrapper A E vars A :=
  Wrapper (Vars None) wrapped fire.
End Debounce.
End Debounce.

(** ** throttle *)
Module Throttle.
Section Throttle.
Context {A E : Type}.
Variable func : A -> outcome E.
Variable limit : Z.

(** [let lastFunc; let lastRan;] *)
Record vars : Type := Vars {
  lastFunc : option nat;
  lastRan : option Z
}.

Local Abbreviation tworld := (world A vars (Z * A)).

(** [!lastRan]: true for [undefined] and for the number 0. *)
Definition not_ran (lr : option Z) : bool :=
  match lr with
  | None => true
  | Some r => r =? 0
  end.

Definition set_lastRan (now : Z) (w : tworld) : tworld * outcome E :=
  (World (Vars (lastFunc (inst w)) (Some now)) (timers w) (log w), Returned).

(** [now - lastRan >= limit]; with [lastRan] undefined the difference is
    NaN and the comparison is false. *)
Definition window_over (now : Z) (lr : option Z) : bool :=
  match lr with
  | None => false
  | Some r => limit <=? now - r
  end.

(** The arrow function handed to [setTimeout]; [now] and [args] are the
    values captured at the call, [lastRan] is read when the timer runs:
    [() => { if (now - lastRan >= limit) { func(...args); lastRan = now; } }] *)
Definition fire (t : Z) (body : Z * A) (w : tworld) : tworld * outcome E :=
  let '(now, args) := body in
  if window_over now (lastRan (inst w)) then
    andThen (invoke func t Scheduled args w) (set_lastRan now)
  else (w, Returned).

(** The wrapped function, with [now = Date.now()]:
    [if (!lastRan) { func(...args); lastRan = now; }
     else { clearTimeout(lastFunc);
            lastFunc = setTimeout(..., limit - (now - lastRan)); }] *)
Definition wrapped (now : Z) (args : A) (w : tworld) : tworld * outcome E :=
  if not_ran (lastRan (inst w)) then
    andThen (invoke func now Direct args w) (set_lastRan now)
  else
    (* here [lastRan] holds a number other than 0 *)
    let r := default 0 (lastRan (inst w)) in
    let h1 := Host.clearTimeout (lastFunc (inst w)) (timers w) in
    let '(id, h2) := Host.setTimeout (now, args) (limit - (now - r)) now h1 in
    (World (Vars (Some id) (lastRan (inst w))) h2 (log w), Returned).

Definition throttle : wrapper A E vars (Z * A) :=
  Wrapper (Vars None None) wrapped fire.
End Throttle.
End Throttle.

(** ** Objects and the store

    The values [isEmpty] and [mergeObjects] can be handed.  An object is
    held by reference: it lives in the store and a value names its
    location, so that two values may share one object.  The objects of the
    store are plain data objects and arrays, with [Object.prototype] and
    [Array.prototype] as the host provides them; the store keeps the own
    enumerable properties of each, in enumeration order.  What an
    operation does with the rest of an object (the names it inherits, the
    [length] of an array, the setter behind [__proto__]) is not described:
    where the outcome depends on it, the operation ends in [Unmodelled].
    A location outside the store has no property. *)
Inductive value : Type :=
| VUndefined
| VNull
| VBool (b : bool)
| VNum (n : Z)
| VStr (s : string)
| VRef (l : nat).

Record object : Type := Obj {
  o_array : bool;
  o_props : list (string * value)
}.

(** What a call can end in other than a value: one of the two exceptions
    the code can meet, or [Unmodelled], which is not an exception of the
    program but the mark of an outcome this description of the host does
    not determine. *)
Inductive error : Type :=
| TypeError
| RangeError
| Unmodelled.

Inductive res (T : Type) : Type :=
| Ok (x : T)
| Throw (e : error).
Arguments Ok {T} x.
Arguments Throw {T} e.

#[global] Instance res_ret : MRet res := fun T x => Ok x.
#[global] Instance res_bind : MBind res := fun T U f m =>
  match m with
  | Ok x => f x
  | Throw e => Throw e
  end.

(** [ps[k]] on a property list. *)
Fixpoint get_own (k : string) (ps : list (string * value)) : option value :=
  match ps with
  | [] => None
  | (k', v) :: ps' => if decide (k = k') then Some v else get_own k ps'
  end.

(** [ps] has the property [k]. *)
Definition has_own (k : string) (ps : list (string * value)) : bool :=
  match get_own k ps with
  | Some _ => true
  | None => false
  end.

(** The array index a property name stands for, if any: the name is the
    decimal numeral, without sign or leading zero, of a whole number below
    2^32 - 1. *)
Fixpoint digits_value (s : string) (acc : N) : option N :=
  match s with
  | EmptyString => Some acc
  | String c s' =>
      let d := Ascii.N_of_ascii c in
      if ((48 <=? d) && (d <=? 57))%N
      then digits_value s' (10 * acc + (d - 48))%N
      else None
  end.

Definition array_index (k : string) : option N :=
  match digits_value k 0%N with
  | Some n =>
      if bool_decide (pretty n = k) && (n <? 4294967295)%N then Some n
      else None
  | None => None
  end.

(** The order of enumeration: a new property named [k] comes before an
    existing one named [k'] when [k] is an array index and [k'] is a
    greater one or none.  Array indices come first, in ascending order,
    then the other names in the order they were created. *)
Definition before (k k' : string) : bool :=
  match array_index k, array_index k' with
  | Some n, Some n' => (n <? n')%N
  | Some _, None => true
  | None, _ => false
  end.

(** Giving the existing property [k] the value [v]: it keeps its place. *)
Fixpoint replace_own (k : string) (v : value) (ps : list (string * value))
  : list (string * value) :=
  match ps with
  | [] => []
  | (k', v') :: ps' =>
      if decide (k = k') then (k, v) :: ps' else (k', v') :: replace_own k v ps'
  end.

(** Creating the property [k]. *)
Fixpoint insert_own (k : string) (v : value) (ps : list (string * value))
  : list (string * value) :=
  match ps with
  | [] => [(k, v)]
  | (k', v') :: ps' =>
      if before k k' then (k, v) :: (k', v') :: ps'
      else (k', v') :: insert_own k v ps'
  end.

(** [ps[k] = v] *)
Definition set_own (k : string) (v : value) (ps : list (string * value))
  : list (string * value) :=
  if has_own k ps then replace_own k v ps else insert_own k v ps.

(** Copying the properties [src] onto [dst], one assignment each. *)
Definition assign_props (dst src : list (string * value))
  : list (string * value) :=
  fold_left (fun acc kv => set_own kv.1 kv.2 acc) src dst.

(** The own enumerable properties of a string: its characters, keyed by
    index. *)
Definition string_props (s : string) : list (string * value) :=
  imap (fun i c => (pretty i, VStr (String c EmptyString)))
       (String.list_ascii_of_string s).

(** The own enumerable properties seen by [for (key in v)] and by the
    spread [{...v}]: none for [null], [undefined], numbers and booleans. *)
Definition own_props (h : list object) (v : value) : list (string * value) :=
  match v with
  | VRef l => from_option o_props [] (h !! l)
  | VStr s => string_props s
  | _ => []
  end.

(** [Object.keys(v)] throws a TypeError for [null] and [undefined]. *)
Definition Object_keys (h : list object) (v : value) : res (list string) :=
  match v with
  | VUndefined | VNull => Throw TypeError
  | _ => Ok (map fst (own_props h v))
  end.

(** [isEmpty(obj) { return Object.keys(obj).length === 0; }] *)
Definition isEmpty (h : list object) (obj : value) : res bool :=
  ks ← Object_keys h obj;
  mret (Nat.eqb (length ks) 0).

(** [v instanceof Object] *)
Definition instanceof_Object (v : value) : bool :=
  match v with
  | VRef _ => true
  | _ => false
  end.

(** The property names every object inherits from [Object.prototype]. *)
Definition Object_prototype_names : list string :=
  ["constructor"; "__defineGetter__"; "__defineSetter__"; "hasOwnProperty";
   "__lookupGetter__"; "__lookupSetter__"; "isPrototypeOf";
   "propertyIsEnumerable"; "toString"; "valueOf"; "__proto__";
   "toLocaleString"].

Definition inherited (k : string) : bool :=
  bool_decide (k ∈ Object_prototype_names).

(** [v] is an array of the store. *)
Definition is_array (h : list object) (v : value) : bool :=
  match v with
  | VRef l => from_option o_array false (h !! l)
  | _ => false
  end.

(** [k in v] throws a TypeError unless [v] is an object.  It is true for
    an own property and for a name a plain object inherits; for an array
    the other names depend on its [length] and on [Array.prototype]. *)
Definition has_property (h : list object) (v : value) (k : string) : res bool :=
  match v with
  | VRef _ =>
      if has_own k (own_props h v) then Ok true
      else if is_array h v then Throw Unmodelled
      else Ok (inherited k)
  | _ => Throw TypeError
  end.

(** [v[k]]: the value of an own property; [undefined] for a name that a
    plain object neither has nor inherits. *)
Definition get (h : list object) (v : value) (k : string) : res value :=
  match v with
  | VUndefined | VNull => Throw TypeError
  | _ =>
      match get_own k (own_props h v) with
      | Some x => Ok x
      | None =>
          if instanceof_Object v && negb (is_array h v) && negb (inherited k)
          then Ok VUndefined
          else Throw Unmodelled
      end
  end.

(** The properties [src] can be assigned to the object [o] one by one as
    plain data: none is named [__proto__] (whose assignment goes to the
    setter of [Object.prototype]), and none is named [length] when [o] is
    an array (whose [length], once assigned, cuts the array). *)
Definition assignable (o : object) (src : list (string * value)) : bool :=
  negb (has_own "__proto__" src) && negb (o_array o && has_own "length" src).

(** [Object.assign(dst, src)]: an object [dst] is updated in place, in
    the store; [null] and [undefined] give a TypeError, and a number, a
    string or a boolean is wrapped in an object that is dropped at once.
    (It is only ever called on a value that passed [instanceof Object].) *)
Definition Object_assign (h : list object) (dst src : value)
  : res (list object) :=
  match dst with
  | VRef l =>
      match h !! l with
      | Some o =>
          if assignable o (own_props h src) then
            Ok (<[l := Obj (o_array o)
                           (assign_props (o_props o) (own_props h src))]> h)
          else Throw Unmodelled
      | None => Ok h
      end
  | VUndefined | VNull => Throw TypeError
  | _ => Ok h
  end.

(** [{ ...target, ...source }]: a new plain object. *)
Definition spread2 (h : list object) (target source : value)
  : value * list object :=
  (VRef (length h),
   h ++ [Obj false (assign_props (assign_props [] (own_props h target))
                                 (own_props h source))]).

(** The body of the loop of [mergeObjects] for one key, [rec] being the
    recursive call [this.mergeObjects]:
    [if (source[key] instanceof Object && key in target) {
       Object.assign(source[key], this.mergeObjects(target[key], source[key])); }] *)
Definition merge_key
    (rec : value -> value -> list object -> res (value * list object))
    (target source : value) (h : list object) (key : string)
  : res (list object) :=
  sv ← get h source key;
  if instanceof_Object sv then
    b ← has_property h target key;
    if b : bool then
      tv ← get h target key;
      '(m, h1) ← rec tv sv h;
      Object_assign h1 sv m
    else mret h
  else mret h.

(** [for (let key in source) body]: the keys are those present when the
    loop starts. *)
Fixpoint for_in (body : list object -> string -> res (list object))
    (keys : list string) (h : list object) : res (list object) :=
  match keys with
  | [] => Ok h
  | key :: keys' => h1 ← body h key; for_in body keys' h1
  end.

(** [mergeObjects(target, source)].  [stack] is the depth of recursion the
    host still allows; when it is used up the host throws a RangeError. *)
Fixpoint mergeObjects (stack : nat) (target source : value) (h : list object)
  : res (value * list object) :=
  match stack with
  | O => Throw RangeError
  | S stack' =>
      h1 ← for_in (merge_key (mergeObjects stack') target source)
                  (map fst (own_props h source)) h;
      mret (spread2 h1 target source)
  end.

(** ** Vocabulary of the statements *)

(** The calls [cs] follow a call made at [prev], each less than [delay]
    after the one before it. *)
Fixpoint close_calls {A : Type} (delay prev : Z) (cs : list (Z * A)) : bool :=
  match cs with
  | [] => true
  | (t, _) :: cs' => (prev <=? t) && (t <? prev + delay) && close_calls delay t cs'
  end.

(** The call [c] is made less than [limit] after the clock value [t0]. *)
Definition in_window {A : Type} (limit t0 : Z) (c : Z * A) : bool :=
  c.1 - t0 <? limit.

(** At most one timer is pending, and cancelling [handle] leaves none. *)
Definition one_pending {B : Type} (handle : option nat) (h : Host.host B) : Prop :=
  (length (Host.pending h) <= 1)%nat /\
  Host.pending (Host.clearTimeout handle h) = [].

(** A throttler with nothing scheduled that has not run yet, or ran at
    least [limit] before [now]. *)
Definition idle {A : Type} (limit now : Z)
    (w : world A Throttle.vars (Z * A)) : Prop :=
  Host.pending (timers w) = [] /\
  (Throttle.not_ran (Throttle.lastRan (inst w)) = true \/
   Throttle.window_over limit now (Throttle.lastRan (inst w)) = true).

(** The state of an instance that has run once, at [t0], and whose pending
    timers all belong to calls made inside the interval after [t0]. *)
Definition cooling {A : Type} (limit t0 : Z) (a0 : A)
    (w : world A Throttle.vars (Z * A)) : Prop :=
  Throttle.lastRan (inst w) = Some t0 /\
  log w = [Exec t0 a0 Direct] /\
  Forall (fun tm => in_window limit t0 (Host.t_body tm) = true)
         (Host.pending (timers w)).





(** A debouncer whose one pending timer belongs to a call made at [t] with
    [args], before any execution. *)
Definition armed {A : Type} (delay t : Z) (args : A)
    (w : world A Debounce.vars A) : Prop :=
  exists id,
    Debounce.timeout (inst w) = Some id /\
    Host.pending (timers w) = [Host.Timer id (t + delay) args] /\
    log w = [].

(** Sample inputs: a callback that always returns, one that always throws
    (the calls carry a number as argument), and a throttler that ran its
    callback once, at clock value [t]. *)
Definition returning : nat -> outcome unit := fun _ => Returned.
Definition throwing : nat -> outcome unit := fun _ => Threw tt.
Definition ran_at (t : Z) : world nat Throttle.vars (Z * nat) :=
  World (Throttle.Vars None (Some t)) Host.empty [Exec t 0%nat Direct].

(** [target = {a: {y: 2}}] at location 0 and [source = {a: {x: 1}}] at
    location 1, and the store after [mergeObjects(target, source)]. *)
Definition sample_store : list object :=
  [Obj false [("a", VRef 2%nat)]; Obj false [("a", VRef 3%nat)];
   Obj false [("y", VNum 2)]; Obj false [("x", VNum 1)]].

(** ** Further vocabulary: calls and executions *)

(** A call together with the moment at which the host runs the timer that
    the call set. *)
Record visit (A : Type) : Type := Visit {
  called_at : Z;
  called_with : A;
  timer_at : Z
}.
Arguments Visit {A} _ _ _.
Arguments called_at {A} _.
Arguments called_with {A} _.
Arguments timer_at {A} _.

(** The schedule in which the host runs the timer of each call before the
    next call is made. *)
Definition attended {A : Type} (vs : list (visit A)) : list (event A) :=
  flat_map (fun v => [Called (called_at v) (called_with v);
                      TimerRun (timer_at v)]) vs.

(** The execution owed to a call by the timer the host ran for it. *)
Definition by_timer {A : Type} (v : visit A) : exec A :=
  Exec (timer_at v) (called_with v) Scheduled.

(** The host runs the timer of each call [delay] or more after the call
    was made. *)
Definition waited {A : Type} (delay : Z) (vs : list (visit A)) : bool :=
  forallb (fun v => called_at v + delay <=? timer_at v) vs.

(** Some call of [calls] carried the arguments [a] and was made at [t] or
    before. *)
Definition from_call {A : Type} (calls : list (Z * A)) (t : Z) (a : A) : Prop :=
  exists c, In c calls /\ c.2 = a /\ c.1 <= t.

(** Every execution and every pending timer is owed to one of [calls], and
    together they are no more than the calls. *)
Definition accounted {A S B : Type} (args_of : B -> A) (calls : list (Z * A))
    (w : world A S B) : Prop :=
  (length (log w) + length (Host.pending (timers w)) <= length calls)%nat /\
  Forall (fun e => from_call calls (ex_time e) (ex_args e)) (log w) /\
  Forall (fun tm => from_call calls (Host.t_due tm) (args_of (Host.t_body tm)))
         (Host.pending (timers w)).

(** Consecutive clock values of [ts] are at least [limit] apart. *)
Fixpoint spaced (limit : Z) (ts : list Z) : bool :=
  match ts with
  | [] => true
  | t1 :: rest =>
      match rest with
      | [] => true
      | t2 :: _ => (limit <=? t2 - t1) && spaced limit rest
      end
  end.

(** Every call of the schedule is made at a clock value other than 0 and
    carries that clock value in its arguments, where [stamp] reads it. *)
Definition stamped {A : Type} (stamp : A -> Z) (ev : event A) : Prop :=
  match ev with
  | Called now args => now <> 0 /\ stamp args = now
  | TimerRun _ => True
  end.

(** A throttler that has served calls made at least [limit] apart: the
    stamps of its executions are spaced, [lastRan] is the stamp of the
    last execution (and not 0), and every pending timer holds the stamp of
    its call. *)
Definition paced {A : Type} (stamp : A -> Z) (limit : Z)
    (w : world A Throttle.vars (Z * A)) : Prop :=
  spaced limit (map (fun e => stamp (ex_args e)) (log w)) = true /\
  match Throttle.lastRan (inst w) with
  | None => log w = []
  | Some r =>
      r <> 0 /\ exists l e, log w = l ++ [e] /\ stamp (ex_args e) = r
  end /\
  Forall (fun tm => (Host.t_body tm).1 <> 0 /\
                    stamp (Host.t_body tm).2 = (Host.t_body tm).1)
         (Host.pending (timers w)).

(** The calls [vs] follow a call made at [prev]: each is made at a clock
    value other than 0, [limit] or more after the one before it (and no
    more than [limit] + 2^31 after it, so that the delay of its timer fits
    in 32 bits), and its timer is run no earlier than the call. *)
Fixpoint apart_visits {A : Type} (limit prev : Z) (vs : list (visit A)) : bool :=
  match vs with
  | [] => true
  | v :: vs' =>
      negb (called_at v =? 0)
      && (limit <=? called_at v - prev)
      && (called_at v - prev - limit <=? 2147483648)
      && (called_at v <=? timer_at v)
      && apart_visits limit (called_at v) vs'
  end.

(** ** Further vocabulary: objects *)


(** ** The UI helpers of vanilla-js-library.js

    [VanillaJS.UI.querySelector], [querySelectorAll] and [addClass], and
    the two statements that end the file.  The document is a store of
    elements; the selector engine of the host is a parameter [select],
    which gives the elements matching a selector in document order, or
    nothing when the selector is not valid (the host then throws a
    SyntaxError).  Strings are sequences of code points below 256. *)
Module UI.

(** The values a helper may be handed or return. *)
Inductive jsval : Type :=
| JUndefined
| JNull
| JBool (b : bool)
| JNum (n : Z)
| JStr (s : string)
| JElem (n : nat)
| JNodeList (ns : list nat)
| JObject
| JThis.

Record node : Type := Node {
  tagName : string;
  is_html : bool;
  classList : list string
}.

Inductive dom_error : Type :=
| SyntaxError
| InvalidCharacterError.

Inductive level : Type := Log | Warn.

(** The messages of the helpers, by template and interpolated values. *)
Inductive message : Type :=
| HelloWorld
| InvalidSelector
| NoElementFound (sel : string)
| SelectionSaved (sel : string)
| InvalidSelectorAll
| NoElementsFound (sel : string)
| NodeListSaved (sel : string)
| InvalidElement (element : jsval)
| InvalidClassName
| ClassAdded (cls tag : string).

Record page : Type := Page {
  nodes : list node;
  console : list (level * message)
}.

Inductive result : Type :=
| Return (v : jsval) (p : page)
| Raise (e : dom_error) (p : page).

Definition console_log (m : message) (p : page) : page :=
  Page (nodes p) (console p ++ [(Log, m)]).

Definition console_warn (m : message) (p : page) : page :=
  Page (nodes p) (console p ++ [(Warn, m)]).

(** Truthiness, [!v] and [a === b].  Two node lists are never compared. *)
Definition truthy (v : jsval) : bool :=
  match v with
  | JUndefined | JNull => false
  | JBool b => b
  | JNum n => negb (n =? 0)
  | JStr s => negb (bool_decide (s = EmptyString))
  | _ => true
  end.

Definition js_not (v : jsval) : jsval := JBool (negb (truthy v)).

Definition strict_eq (a b : jsval) : bool :=
  match a, b with
  | JUndefined, JUndefined | JNull, JNull | JThis, JThis => true
  | JBool x, JBool y => Bool.eqb x y
  | JNum x, JNum y => x =? y
  | JStr x, JStr y => bool_decide (x = y)
  | JElem x, JElem y => Nat.eqb x y
  | _, _ => false
  end.

(** White space for [String.prototype.trim] (tab, line feed, vertical
    tab, form feed, carriage return, space, no-break space) and ASCII
    white space for the tokens of a class list (the same without vertical
    tab and no-break space). *)
Definition js_space (c : Ascii.ascii) : bool :=
  let n := Ascii.nat_of_ascii c in
  ((9 <=? n) && (n <=? 13) || (n =? 32) || (n =? 160))%nat.

Definition dom_space (c : Ascii.ascii) : bool :=
  let n := Ascii.nat_of_ascii c in
  ((n =? 9) || (n =? 10) || (n =? 12) || (n =? 13) || (n =? 32))%nat.

Fixpoint drop_spaces (cs : list Ascii.ascii) : list Ascii.ascii :=
  match cs with
  | [] => []
  | c :: cs' => if js_space c then drop_spaces cs' else cs
  end.

(** [s.trim()] *)
Definition trim (s : string) : string :=
  String.string_of_list_ascii
    (rev (drop_spaces (rev (drop_spaces (String.list_ascii_of_string s))))).

Definition has_dom_space (s : string) : bool :=
  existsb dom_space (String.list_ascii_of_string s).

(** [classList.add(token)]: a SyntaxError for the empty token, an
    InvalidCharacterError for a token with white space; a token already
    there is not added again. *)
Definition classList_add (token : string) (nd : node) : dom_error + node :=
  if bool_decide (token = EmptyString) then inl SyntaxError
  else if has_dom_space token then inl InvalidCharacterError
  else if existsb (fun c => bool_decide (c = token)) (classList nd) then inr nd
  else inr (Node (tagName nd) (is_html nd) (classList nd ++ [token])).

(** The element a value denotes when [value instanceof HTMLElement]. *)
Definition html_element (p : page) (element : jsval) : option (nat * node) :=
  match element with
  | JElem n =>
      match nodes p !! n with
      | Some nd => if is_html nd then Some (n, nd) else None
      | None => None
      end
  | _ => None
  end.

Section Helpers.
Variable select : list node -> string -> option (list nat).

(** [document.querySelector(sel)] and [document.querySelectorAll(sel)] *)
Definition document_querySelector (p : page) (sel : string) : option jsval :=
  match select (nodes p) sel with
  | Some (n :: _) => Some (JElem n)
  | Some [] => Some JNull
  | None => None
  end.

Definition document_querySelectorAll (p : page) (sel : string)
  : option (list nat) :=
  select (nodes p) sel.

(** [querySelector(element)]: a value that is not a string is refused
    with a message; a selector that matches nothing gives a warning and
    [null]. *)
Definition querySelector (element : jsval) (p : page) : result :=
  match element with
  | JStr sel =>
      match document_querySelector p sel with
      | None => Raise SyntaxError p
      | Some selectedElement =>
          if negb (truthy selectedElement)
          then Return JNull (console_warn (NoElementFound sel) p)
          else Return selectedElement (console_log (SelectionSaved sel) p)
      end
  | _ => Return JNull (console_log InvalidSelector p)
  end.

(** [querySelectorAll(element)], with its test
    [if (!selectedElement.length === 0)]. *)
Definition querySelectorAll (element : jsval) (p : page) : result :=
  match element with
  | JStr sel =>
      match document_querySelectorAll p sel with
      | None => Raise SyntaxError p
      | Some ns =>
          if strict_eq (js_not (JNum (Z.of_nat (length ns)))) (JNum 0)
          then Return JNull (console_warn (NoElementsFound sel) p)
          else Return (JNodeList ns) (console_log (NodeListSaved sel) p)
      end
  | _ => Return JNull (console_log InvalidSelectorAll p)
  end.

(** [addClass(element, classToAdd)]: the two guards, then
    [element.classList.add(classToAdd.trim())], the message and
    [return this]. *)
Definition addClass (element classToAdd : jsval) (p : page) : result :=
  match html_element p element with
  | None => Return JThis (console_warn (InvalidElement element) p)
  | Some (n, nd) =>
      match classToAdd with
      | JStr cls =>
          if strict_eq classToAdd (JStr EmptyString)
          then Return JThis (console_warn InvalidClassName p)
          else
            match classList_add (trim cls) nd with
            | inl e => Raise e p
            | inr nd' =>
                Return JThis
                  (console_log (ClassAdded cls (tagName nd))
                     (Page (<[n := nd']> (nodes p)) (console p)))
            end
      | _ => Return JThis (console_warn InvalidClassName p)
      end
  end.

(** The statements of the file, in order:
    [console.log("hello world!")],
    [const header1 = VanillaJS.UI.querySelector('h1');]
    [VanillaJS.UI.addClass(header1, "newClass");] *)
Definition script (p : page) : result :=
  match querySelector (JStr "h1") (console_log HelloWorld p) with
  | Return header1 p1 => addClass header1 (JStr "newClass") p1
  | Raise e p1 => Raise e p1
  end.
End Helpers.
End UI.

(** ** The event methods of extendElement (README-v1-deprecated.md)

    [on], [off], [once] and [trigger], as [extendElement] attaches them to
    an element, over the host's list of event listeners.  A user callback
    is known by a number and by its outcome [func]; it is taken not to
    add or remove listeners itself.  The closure that [once] creates is a
    function of its own, told apart by a serial number. *)
Module Events.

Inductive handler : Type :=
| Plain (cb : nat)
| OnceOf (cb : nat) (serial : nat).

#[global] Instance handler_eq_dec : EqDecision handler.
Proof. solve_decision. Defined.

(** An element as an event target: its listeners in the order they were
    added, the number of closures made by [once] so far, and the user
    callbacks run so far, with the event type they ran for. *)
Record target : Type := Target {
  listeners : list (string * handler);
  closures : nat;
  ran : list (string * nat)
}.

Definition registered (ev : string) (h : handler) (t : target) : bool :=
  existsb (fun l => bool_decide (l = (ev, h))) (listeners t).

(** [addEventListener(ev, h)]: a listener already there is not added
    again. *)
Definition addEventListener (ev : string) (h : handler) (t : target) : target :=
  if registered ev h t then t
  else Target (listeners t ++ [(ev, h)]) (closures t) (ran t).

(** [removeEventListener(ev, h)] *)
Definition removeEventListener (ev : string) (h : handler) (t : target)
  : target :=
  Target (List.filter (fun l => negb (bool_decide (l = (ev, h)))) (listeners t))
         (closures t) (ran t).

Section Methods.
Context {E : Type}.
Variable func : nat -> outcome E.

(** The host calls one listener; what a listener throws is reported by the
    host and goes no further.  For the closure of [once]:
    [(e) => { callback(e); this.removeEventListener(event, onceCallback); }] *)
Definition call_listener (ev : string) (h : handler) (t : target) : target :=
  match h with
  | Plain cb => Target (listeners t) (closures t) (ran t ++ [(ev, cb)])
  | OnceOf cb serial =>
      let t1 := Target (listeners t) (closures t) (ran t ++ [(ev, cb)]) in
      match func cb with
      | Returned => removeEventListener ev (OnceOf cb serial) t1
      | Threw _ => t1
      end
  end.

(** [dispatchEvent]: the listeners present when the dispatch starts are
    gone through in order; one is called when it is for the event's type
    and has not been removed meanwhile. *)
Fixpoint dispatch (snapshot : list (string * handler)) (ev : string)
    (t : target) : target :=
  match snapshot with
  | [] => t
  | (ty, h) :: rest =>
      dispatch rest ev
        (if bool_decide (ty = ev) && registered ty h t
         then call_listener ev h t else t)
  end.

(** [element.on = function(event, callback) {
      this.addEventListener(event, callback); return this; }] *)
Definition on (ev : string) (cb : nat) (t : target) : target :=
  addEventListener ev (Plain cb) t.

(** [element.off]: [this.removeEventListener(event, callback)] *)
Definition off (ev : string) (cb : nat) (t : target) : target :=
  removeEventListener ev (Plain cb) t.

(** [element.once]: a new closure [onceCallback] is made and added. *)
Definition once (ev : string) (cb : nat) (t : target) : target :=
  addEventListener ev (OnceOf cb (closures t))
    (Target (listeners t) (S (closures t)) (ran t)).

(** [element.trigger]: [this.dispatchEvent(new Event(eventType))] *)
Definition trigger (ev : string) (t : target) : target :=
  dispatch (listeners t) ev t.
End Methods.
End Events.

(** An element with no listener for the event type [ev]. *)
Definition deaf (ev : string) (t : Events.target) : Prop :=
  Forall (fun l => l.1 <> ev) (Events.listeners t).

(** Sample inputs for the further properties: a store where an object
    refers to itself, a page with one heading and a selector engine that
    knows the selector [h1] only, and an element with no listener. *)
Definition looping_store : list object :=
  [Obj false [("a", VRef 0%nat)]; Obj false [("a", VRef 1%nat)]].

Definition heading_page : UI.page :=
  UI.Page [UI.Node "H1" true ["title"]] [].

Definition heading_select (ns : list UI.node) (sel : string)
  : option (list nat) :=
  if bool_decide (sel = "h1") then Some [0%nat] else Some [].

Definition silent : Events.target := Events.Target [] 0 [].

(** * Properties *)

(** ** The timer queue *)
Section HostFacts.
Context {B : Type}.
Implicit Types (h : Host.host B) (tm : Host.timer B) (l : list (Host.timer B)).

Lemma drop_In i tm l :
  In tm (Host.drop i l) <-> In tm l /\ Host.t_id tm <> i.
Proof.
  unfold Host.drop. rewrite filter_In, negb_true_iff, Nat.eqb_neq. tauto.
Qed.

Lemma drop_length i l : (length (Host.drop i l) <= length l)%nat.
Proof.
  unfold Host.drop. induction l as [|tm l IH]; simpl; [lia|].
  destruct (negb _); simpl; lia.
Qed.

Lemma drop_length_In tm l :
  In tm l -> (length (Host.drop (Host.t_id tm) l) < length l)%nat.
Proof.
  unfold Host.drop. induction l as [|tm' l IH]; simpl; [tauto|].
  intros [->|Hin].
  - rewrite Nat.eqb_refl. simpl.
    pose proof (drop_length (Host.t_id tm) l) as Hle. unfold Host.drop in Hle. lia.
  - specialize (IH Hin). destruct (negb _); simpl; lia.
Qed.

Lemma earliest_In l tm : Host.earliest l = Some tm -> In tm l.
Proof.
  revert tm. induction l as [|tm' l IH]; simpl; intros tm; [discriminate|].
  destruct (Host.earliest l) as [tm''|].
  - destruct (_ <? _); intros [= <-]; auto.
  - intros [= <-]. auto.
Qed.

Lemma earliest_None l : Host.earliest l = None -> l = [].
Proof.
  destruct l as [|tm l]; simpl; [reflexivity|].
  destruct (Host.earliest l); [destruct (_ <? _)|]; discriminate.
Qed.

Lemma next_due_In bound h tm :
  Host.next_due bound h = Some tm -> In tm (Host.pending h).
Proof.
  unfold Host.next_due.
  destruct (Host.earliest _) as [tm'|] eqn:He; [|discriminate].
  apply earliest_In in He.
  destruct bound as [t|]; [destruct (_ <=? _)|]; intros [= <-]; assumption.
Qed.

Lemma next_due_all h : Host.next_due None h = None -> Host.pending h = [].
Proof.
  unfold Host.next_due.
  destruct (Host.earliest _) eqn:He; [discriminate|].
  intros _. now apply earliest_None.
Qed.

(** A delay that fits in 32 bits is taken as it is. *)
Lemma to_int32_small d :
  -2147483648 <= d <= 2147483647 -> Host.to_int32 d = d.
Proof.
  intros Hd. unfold Host.to_int32. rewrite Z.mod_small by lia. lia.
Qed.

Lemma one_pending_clear_set handle h body delay now :
  Host.pending (Host.clearTimeout handle h) = [] ->
  one_pending (Some (Host.setTimeout body delay now (Host.clearTimeout handle h)).1)
              (Host.setTimeout body delay now (Host.clearTimeout handle h)).2.
Proof.
  intros Hc. unfold one_pending. simpl. rewrite Hc. simpl.
  rewrite Nat.eqb_refl. simpl. split; [lia|reflexivity].
Qed.

Lemma one_pending_take handle h tm :
  one_pending handle h -> In tm (Host.pending h) ->
  one_pending handle (Host.take tm h).
Proof.
  intros [Hlen Hc] Hin. unfold one_pending, Host.take. simpl.
  assert (Host.drop (Host.t_id tm) (Host.pending h) = []) as ->.
  { apply drop_length_In in Hin. apply length_zero_iff_nil. lia. }
  split; [simpl; lia|]. destruct handle; reflexivity.
Qed.
End HostFacts.

(** ** The event loop *)
Section LoopFacts.
Context {A E S B : Type}.
Variable W : wrapper A E S B.
Implicit Types (w : world A S B) (P : world A S B -> Prop).

(** What holds before the timers run and is kept by every timer holds
    after them. *)
Lemma run_timers_inv P :
  (forall w tm, P w -> In tm (Host.pending (timers w)) ->
                P (fire_timer W tm w).1) ->
  forall fuel bound w, P w -> P (run_timers W fuel bound w).
Proof.
  intros Hfire fuel bound.
  induction fuel as [|fuel IH]; intros w Hw; simpl; [assumption|].
  destruct (Host.next_due bound (timers w)) as [tm|] eqn:Hn; [|assumption].
  apply IH, Hfire; [assumption|]. eapply next_due_In, Hn.
Qed.

(** ... and the same for a sequence of calls that each satisfy [Q]. *)
Lemma run_calls_inv P (Q : Z * A -> Prop) :
  (forall w tm, P w -> In tm (Host.pending (timers w)) ->
                P (fire_timer W tm w).1) ->
  (forall w now args, P w -> Q (now, args) -> P (w_call W now args w).1) ->
  forall cs w, Forall Q cs -> P w -> P (run_calls W cs w).
Proof.
  intros Hfire Hcall cs. induction cs as [|[now args] cs IH]; intros w HQ Hw; simpl.
  - assumption.
  - inversion HQ; subst. apply IH; [assumption|].
    apply Hcall; [|assumption]. unfold advance. now apply run_timers_inv.
Qed.

(** Every state of a run is a state the instance can be in. *)
Lemma run_timers_reachable fuel bound w :
  reachable W w -> reachable W (run_timers W fuel bound w).
Proof.
  apply run_timers_inv. intros. now apply reach_fire.
Qed.

Lemma run_reachable cs : reachable W (run W cs).
Proof.
  unfold run, flush. apply run_timers_reachable.
  apply (run_calls_inv (reachable W) (fun _ => True)).
  - intros. now apply reach_fire.
  - intros. now apply reach_call.
  - apply List.Forall_forall. trivial.
  - apply reach_init.
Qed.

(** The loop has fuel enough: when timer callbacks leave the queue alone,
    no timer that is due is left once the loop stops. *)
Lemma run_timers_done bound :
  (forall t b w, timers (w_fire W t b w).1 = timers w) ->
  forall fuel w, (length (Host.pending (timers w)) <= fuel)%nat ->
  Host.next_due bound (timers (run_timers W fuel bound w)) = None.
Proof.
  intros Hkeep fuel. induction fuel as [|fuel IH]; intros w Hlen; simpl.
  - assert (Host.pending (timers w) = []) as Hp
      by (apply length_zero_iff_nil; lia).
    unfold Host.next_due. now rewrite Hp.
  - destruct (Host.next_due bound (timers w)) as [tm|] eqn:Hn; [|exact Hn].
    apply IH. unfold fire_timer. rewrite Hkeep. simpl.
    apply next_due_In, drop_length_In in Hn. lia.
Qed.

Lemma advance_done t w :
  (forall t' b w', timers (w_fire W t' b w').1 = timers w') ->
  Host.next_due (Some t) (timers (advance W t w)) = None.
Proof. intros Hkeep. unfold advance. now apply run_timers_done. Qed.

(** The loop with at most one timer pending. *)
Lemma advance_idle t w : Host.pending (timers w) = [] -> advance W t w = w.
Proof. unfold advance. now intros ->. Qed.

Lemma advance_wait t w tm :
  Host.pending (timers w) = [tm] -> t < Host.t_due tm -> advance W t w = w.
Proof.
  unfold advance. intros Hp Hlt. rewrite Hp. cbn. unfold Host.next_due.
  rewrite Hp. cbn. now replace (Host.t_due tm <=? t) with false by lia.
Qed.

Lemma advance_fire t w tm :
  Host.pending (timers w) = [tm] -> Host.t_due tm <= t ->
  advance W t w = (fire_timer W tm w).1.
Proof.
  unfold advance. intros Hp Hle. rewrite Hp. cbn. unfold Host.next_due.
  rewrite Hp. cbn. now replace (Host.t_due tm <=? t) with true by lia.
Qed.

Lemma flush_fire w tm :
  Host.pending (timers w) = [tm] -> flush W w = (fire_timer W tm w).1.
Proof.
  unfold flush. intros Hp. rewrite Hp. cbn. unfold Host.next_due.
  now rewrite Hp.
Qed.

(** With no bound on the clock the queue ends up empty: no timer is left
    waiting for ever. *)
Lemma flush_drains :
  (forall t b w, timers (w_fire W t b w).1 = timers w) ->
  forall w, Host.pending (timers (flush W w)) = [].
Proof.
  intros Hkeep w. apply next_due_all. unfold flush. now apply run_timers_done.
Qed.
End LoopFacts.

(** ** Schedules *)
Section ScheduleFacts.
Context {A E S B : Type}.
Variable W : wrapper A E S B.
Implicit Types (w : world A S B) (P : world A S B -> Prop).

Lemma run_timer_at_idle t w :
  Host.pending (timers w) = [] -> run_timer_at W t w = w.
Proof. unfold run_timer_at, Host.next_due. now intros ->. Qed.

Lemma run_timer_at_wait t w tm :
  Host.pending (timers w) = [tm] -> t < Host.t_due tm -> run_timer_at W t w = w.
Proof.
  unfold run_timer_at, Host.next_due. intros -> Hlt. cbn.
  now replace (Host.t_due tm <=? t) with false by lia.
Qed.

Lemma run_timer_at_fire t w tm :
  Host.pending (timers w) = [tm] -> Host.t_due tm <= t ->
  run_timer_at W t w
  = (w_fire W t (Host.t_body tm)
       (World (inst w) (Host.take tm (timers w)) (log w))).1.
Proof.
  unfold run_timer_at, Host.next_due. intros -> Hle. cbn.
  now replace (Host.t_due tm <=? t) with true by lia.
Qed.

(** What holds at first and is kept by every call of the schedule and by
    every timer, whenever it runs, holds after the schedule. *)
Lemma play_inv P (Q : event A -> Prop) :
  (forall w t tm, P w -> In tm (Host.pending (timers w)) ->
     P (w_fire W t (Host.t_body tm)
          (World (inst w) (Host.take tm (timers w)) (log w))).1) ->
  (forall w now args, P w -> Q (Called now args) -> P (w_call W now args w).1) ->
  forall evs w, Forall Q evs -> P w -> P (play W evs w).
Proof.
  intros Hfire Hcall evs.
  induction evs as [|[now args|t] evs IH]; intros w HQ Hw; cbn [play].
  - assumption.
  - inversion HQ; subst. apply IH; [assumption|]. now apply Hcall.
  - inversion HQ; subst. apply IH; [assumption|]. unfold run_timer_at.
    destruct (Host.next_due (Some t) (timers w)) as [tm|] eqn:Hn; [|assumption].
    apply Hfire; [assumption|]. eapply next_due_In, Hn.
Qed.

Lemma play_app evs1 evs2 w :
  play W (evs1 ++ evs2) w = play W evs2 (play W evs1 w).
Proof.
  revert w. induction evs1 as [|[now args|t] evs1 IH]; intros w; cbn; auto.
Qed.
End ScheduleFacts.

(** The host runs a timer on an explicit state with at most one timer
    pending. *)
Ltac timer_step :=
  match goal with
  | |- context [run_timer_at ?W ?t (World ?i ?h ?l)] =>
      first [ rewrite (run_timer_at_idle W t (World i h l) eq_refl)
            | rewrite (run_timer_at_wait W t (World i h l) _ eq_refl)
                by (cbn; lia)
            | rewrite (run_timer_at_fire W t (World i h l) _ eq_refl)
                by (cbn; lia) ]
  end.

(** ** throttle *)
Section ThrottleFacts.
Context {A E : Type}.
Variable func : A -> outcome E.
Variable limit : Z.
Implicit Types (w : world A Throttle.vars (Z * A)) (args : A).

Local Abbreviation thr := (Throttle.throttle func limit).

Lemma throttle_fire_timers t b w :
  timers (Throttle.fire func limit t b w).1 = timers w.
Proof.
  unfold Throttle.fire. destruct b as [now args].
  destruct (Throttle.window_over _ _ _); [|reflexivity].
  unfold andThen, invoke, Throttle.set_lastRan. now destruct (func args).
Qed.

(** The first call on a new instance, with a callback that returns. *)
Lemma throttle_first_call t0 a0 :
  func a0 = Returned ->
  (w_call thr t0 a0 (advance thr t0 (init_world thr))).1
  = World (Throttle.Vars None (Some t0)) Host.empty [Exec t0 a0 Direct].
Proof.
  intros Hret. cbn. unfold andThen, invoke. cbn. now rewrite Hret.
Qed.

Lemma cooling_fire t0 a0 w tm :
  cooling limit t0 a0 w -> In tm (Host.pending (timers w)) ->
  cooling limit t0 a0 (fire_timer thr tm w).1.
Proof.
  intros (Hran & Hlog & Hall) Hin.
  assert (in_window limit t0 (Host.t_body tm) = true) as Hw.
  { rewrite List.Forall_forall in Hall. now apply Hall. }
  unfold fire_timer. cbn. unfold Throttle.fire. cbn.
  destruct (Host.t_body tm) as [now args]. rewrite Hran. cbn.
  unfold in_window in Hw. cbn in Hw. apply Z.ltb_lt in Hw.
  assert ((limit <=? now - t0) = false) as -> by (apply Z.leb_gt; lia).
  cbn. repeat split; [assumption..|].
  apply List.Forall_forall. intros tm' Hin'. apply drop_In in Hin' as [Hin' _].
  rewrite List.Forall_forall in Hall. now apply Hall.
Qed.

Lemma cooling_call t0 a0 w now args :
  t0 <> 0 -> cooling limit t0 a0 w -> in_window limit t0 (now, args) = true ->
  cooling limit t0 a0 (w_call thr now args w).1.
Proof.
  intros Ht0 (Hran & Hlog & Hall) Hw. cbn. unfold Throttle.wrapped.
  rewrite Hran. cbn. assert ((t0 =? 0) = false) as -> by (now apply Z.eqb_neq). cbn.
  repeat split; [assumption..|].
  apply Forall_app. split.
  - rewrite List.Forall_forall in Hall. apply List.Forall_forall. intros tm Hin.
    apply Hall. destruct (Throttle.lastFunc (inst w)); cbn in Hin; [|assumption].
    now apply drop_In in Hin as [Hin _].
  - constructor; [assumption|constructor].
Qed.

(** A call made when [lastRan] is undefined or 0 runs the callback in the
    wrapper's own body. *)
Lemma throttle_call_runs w now args :
  Throttle.not_ran (Throttle.lastRan (inst w)) = true ->
  w_call thr now args w
  = match func args with
    | Returned =>
        (World (Throttle.Vars (Throttle.lastFunc (inst w)) (Some now))
               (timers w) (log w ++ [Exec now args Direct]), Returned)
    | Threw x =>
        (World (inst w) (timers w) (log w ++ [Exec now args Direct]), Threw x)
    end.
Proof.
  intros Hnr. cbn. unfold Throttle.wrapped. rewrite Hnr.
  unfold andThen, invoke. now destruct (func args).
Qed.

Lemma throttle_call_runs_log w now args :
  Throttle.not_ran (Throttle.lastRan (inst w)) = true ->
  log (w_call thr now args w).1 = log w ++ [Exec now args Direct] /\
  timers (w_call thr now args w).1 = timers w /\
  Throttle.not_ran (Throttle.lastRan (inst (w_call thr now args w).1))
  = match func args with Returned => now =? 0 | Threw _ => true end.
Proof.
  intros Hnr. rewrite throttle_call_runs by assumption.
  destruct (func args); cbn; auto.
Qed.

(** A later call, made when [lastRan] holds a non-zero clock value. *)
Lemma throttle_call_schedules w now args r :
  Throttle.lastRan (inst w) = Some r -> r <> 0 ->
  w_call thr now args w
  = (World (Throttle.Vars (Some (Host.next_id (timers w))) (Some r))
       (Host.setTimeout (now, args) (limit - (now - r)) now
          (Host.clearTimeout (Throttle.lastFunc (inst w)) (timers w))).2
       (log w), Returned).
Proof.
  intros Hr Hnz. cbn. unfold Throttle.wrapped. rewrite Hr. cbn.
  replace (r =? 0) with false by lia. cbn.
  now destruct (Throttle.lastFunc (inst w)).
Qed.

(** A timer whose call was made less than [limit] after the last run does
    nothing. *)
Lemma throttle_fire_skips t now args w r :
  Throttle.lastRan (inst w) = Some r -> now - r < limit ->
  Throttle.fire func limit t (now, args) w = (w, Returned).
Proof.
  intros Hr Hlt. unfold Throttle.fire. rewrite Hr. cbn.
  now replace (limit <=? now - r) with false by lia.
Qed.

(** A timer whose call was made [limit] or more after the last run runs
    the callback. *)
Lemma throttle_fire_runs t now args w r :
  Throttle.lastRan (inst w) = Some r -> limit <= now - r ->
  log (Throttle.fire func limit t (now, args) w).1
  = log w ++ [Exec t args Scheduled] /\
  (Throttle.fire func limit t (now, args) w).2 = func args.
Proof.
  intros Hr Hle. unfold Throttle.fire. rewrite Hr. cbn.
  replace (limit <=? now - r) with true by lia.
  unfold andThen, invoke. now destruct (func args).
Qed.

(** A burst that stays inside the interval opened by its first call runs
    the callback once, for the first call, and leaves no timer behind. *)
Lemma throttle_burst t0 a0 (rest : list (Z * A)) :
  t0 <> 0 -> func a0 = Returned ->
  forallb (in_window limit t0) rest = true ->
  executions thr ((t0, a0) :: rest) = [Exec t0 a0 Direct] /\
  Host.pending (timers (run thr ((t0, a0) :: rest))) = [].
Proof.
  intros Ht0 Hret Hrest. split.
  - assert (cooling limit t0 a0 (run thr ((t0, a0) :: rest))) as (_ & Hlog & _);
      [|exact Hlog].
    unfold run, flush. apply run_timers_inv; [apply cooling_fire|].
    cbn [run_calls]. rewrite (throttle_first_call _ _ Hret).
    apply (run_calls_inv thr (cooling limit t0 a0)
             (fun c => in_window limit t0 c = true)).
    + apply cooling_fire.
    + intros. now apply cooling_call.
    + apply List.Forall_forall. intros c Hc.
      rewrite forallb_forall in Hrest. now apply Hrest.
    + repeat split. constructor.
  - apply flush_drains. intros. apply throttle_fire_timers.
Qed.

(** C3 (as the code behaves). A burst of two or more calls that all fall
    inside the interval opened by the first call runs the callback exactly
    once, for the first call, in the body of that call; the trailing timer
    of the last call runs but its test [now - lastRan >= limit] compares
    the clock value captured at the call and fails, so there is no second
    execution. *)
Theorem throttle_burst_one_execution t0 a0 (rest : list (Z * A)) :
  t0 <> 0 -> func a0 = Returned -> rest <> [] ->
  forallb (in_window limit t0) rest = true ->
  executions thr ((t0, a0) :: rest) = [Exec t0 a0 Direct] /\
  length (executions thr ((t0, a0) :: rest)) = 1%nat.
Proof.
  intros Ht0 Hret _ Hrest.
  destruct (throttle_burst t0 a0 rest Ht0 Hret Hrest) as [-> _]. now split.
Qed.

(** C2 (as the code behaves). When the last call of a burst falls inside
    the interval opened by the first call and carries other arguments than
    the first, the callback is never run with them: once every timer has
    run, none is pending and no execution has the last call's arguments. *)
Theorem throttle_final_call_dropped t0 a0 (rest : list (Z * A)) :
  t0 <> 0 -> func a0 = Returned ->
  forallb (in_window limit t0) rest = true ->
  (List.last rest (t0, a0)).2 <> a0 ->
  Host.pending (timers (run thr ((t0, a0) :: rest))) = [] /\
  ~ In (List.last rest (t0, a0)).2 (map ex_args (executions thr ((t0, a0) :: rest))).
Proof.
  intros Ht0 Hret Hrest Hne.
  destruct (throttle_burst t0 a0 rest Ht0 Hret Hrest) as [-> Hp].
  split; [assumption|]. cbn. intros [Heq|[]]. now apply Hne.
Qed.

(** A call made once the interval after the last run is over, with no
    timer pending: nothing runs in the call, which sets a timer that is
    due at once. *)
Lemma throttle_call_after_interval w now args r :
  Throttle.lastRan (inst w) = Some r -> r <> 0 ->
  Host.pending (timers w) = [] ->
  limit <= now - r -> now - r - limit <= 2147483648 ->
  (w_call thr now args w).1
  = World (Throttle.Vars (Some (Host.next_id (timers w))) (Some r))
      (Host.MkHost (S (Host.next_id (timers w)))
         [Host.Timer (Host.next_id (timers w)) now (now, args)])
      (log w).
Proof.
  intros Hr Hr0 Hp Hover Hfit.
  rewrite (throttle_call_schedules w now args r Hr Hr0). cbn [fst].
  assert (Host.clearTimeout (Throttle.lastFunc (inst w)) (timers w)
          = Host.MkHost (Host.next_id (timers w)) []) as ->.
  { destruct (timers w) as [n ps]. cbn in Hp. subst ps.
    now destruct (Throttle.lastFunc (inst w)). }
  unfold Host.setTimeout. cbn [snd Host.next_id Host.pending app].
  rewrite to_int32_small by lia. do 4 f_equal. lia.
Qed.

(** The timer of such a call, whenever the host runs it. *)
Lemma throttle_timer_after_interval (i : Throttle.vars) n l now args r u :
  Throttle.lastRan i = Some r -> limit <= now - r -> now <= u ->
  func args = Returned ->
  run_timer_at thr u
    (World i (Host.MkHost (S n) [Host.Timer n now (now, args)]) l)
  = World (Throttle.Vars (Throttle.lastFunc i) (Some now))
      (Host.MkHost (S n) []) (l ++ [Exec u args Scheduled]).
Proof.
  intros Hr Hover Hu Hret.
  timer_step. cbn. unfold Throttle.fire. cbn. rewrite Hr. cbn.
  replace (limit <=? now - r) with true by lia.
  unfold andThen, invoke. rewrite Hret. cbn. unfold Host.take, Host.drop. cbn.
  now rewrite Nat.eqb_refl.
Qed.

(** C5 (amended). A call to an idle throttler (nothing scheduled, and
    either it has not run yet or the interval since its last run is over).
    When [lastRan] is unset (or 0) the callback runs at once, in the body
    of the call, and no timer is set.  When the throttler has run before,
    at [r], nothing runs in the call: the call sets a timer that is due at
    once (the interval having ended no more than 2^31 ms ago), and when
    the host runs that timer, at whatever clock value [u], the callback is
    executed with the arguments of the call and no timer is left.  Either
    way the call gives one execution, not two; a single call on a new
    instance gives exactly one. *)
Theorem throttle_idle_call w now args :
  idle limit now w ->
  (Throttle.not_ran (Throttle.lastRan (inst w)) = true ->
   log (w_call thr now args w).1 = log w ++ [Exec now args Direct] /\
   Host.pending (timers (w_call thr now args w).1) = []) /\
  (forall r, Throttle.lastRan (inst w) = Some r -> r <> 0 ->
   now - r - limit <= 2147483648 ->
   log (w_call thr now args w).1 = log w /\
   (exists id, Host.pending (timers (w_call thr now args w).1)
               = [Host.Timer id now (now, args)]) /\
   forall u, now <= u ->
     log (run_timer_at thr u (w_call thr now args w).1)
     = log w ++ [Exec u args Scheduled] /\
     Host.pending (timers (run_timer_at thr u (w_call thr now args w).1)) = []) /\
  executions thr [(now, args)] = [Exec now args Direct].
Proof.
  intros [Hp Hidle]. split; [|split].
  - intros Hnr.
    destruct (throttle_call_runs_log w now args Hnr) as (Hlog & Htm & _).
    split; [exact Hlog|]. now rewrite Htm.
  - intros r Hr Hr0 Hfit.
    assert (limit <= now - r) as Hover.
    { destruct Hidle as [Hnr|Hover]; rewrite Hr in *; cbn in *; lia. }
    rewrite (throttle_call_after_interval w now args r Hr Hr0 Hp Hover Hfit).
    split; [reflexivity|]. split; [eexists; reflexivity|].
    intros u Hu. timer_step.
    cbn [Host.t_body inst timers log w_fire Throttle.throttle].
    match goal with
    | |- context [Throttle.fire func limit u (now, args) ?w0] =>
        destruct (throttle_fire_runs u now args w0 r eq_refl Hover) as [Hlog _];
        rewrite Hlog, (throttle_fire_timers u (now, args) w0)
    end.
    split; [reflexivity|]. cbn. now rewrite Nat.eqb_refl.
  - unfold executions, run. cbn [run_calls].
    rewrite advance_idle by reflexivity.
    destruct (throttle_call_runs_log (init_world thr) now args eq_refl)
      as (Hlog & Htm & _).
    unfold flush. rewrite Htm. cbn. exact Hlog.
Qed.

(** C8. The wrapper tells a first call from a later one by the truthiness
    of [lastRan]: when the clock value recorded at an execution is 0, the
    next call runs the callback in the wrapper's own body again, whatever
    the interval; so calls at clock values 0 and [t] give two leading
    executions, also for [t] less than [limit]. *)
Theorem throttle_zero_clock_runs_again :
  (forall w now args,
     Throttle.lastRan (inst w) = Some 0 ->
     log (w_call thr now args w).1 = log w ++ [Exec now args Direct]) /\
  (forall a1 a2 t,
     executions thr [(0, a1); (t, a2)]
     = [Exec 0 a1 Direct; Exec t a2 Direct]).
Proof.
  split.
  - intros w now args Hr. apply throttle_call_runs_log. now rewrite Hr.
  - intros a1 a2 t. unfold executions, run. cbn [run_calls].
    rewrite (advance_idle thr 0 (init_world thr) eq_refl).
    destruct (throttle_call_runs_log (init_world thr) 0 a1 eq_refl)
      as (Hlog1 & Htm1 & Hnr1).
    assert (Throttle.not_ran
              (Throttle.lastRan (inst (w_call thr 0 a1 (init_world thr)).1))
            = true) as Hnr by (rewrite Hnr1; now destruct (func a1)).
    rewrite advance_idle by (now rewrite Htm1).
    destruct (throttle_call_runs_log _ t a2 Hnr) as (Hlog2 & Htm2 & _).
    unfold flush. rewrite Htm2, Htm1. cbn [init_world timers].
    unfold Host.empty. cbn [Host.pending length run_timers].
    rewrite Hlog2, Hlog1. reflexivity.
Qed.
End ThrottleFacts.

(** One turn of the event loop on an explicit state with at most one timer
    pending. *)
Ltac loop_step :=
  match goal with
  | |- context [advance ?W ?t (World ?i ?h ?l)] =>
      first [ rewrite (advance_idle W t (World i h l) eq_refl)
            | rewrite (advance_wait W t (World i h l) _ eq_refl) by (cbn; lia)
            | rewrite (advance_fire W t (World i h l) _ eq_refl) by (cbn; lia) ]
  | |- context [flush ?W (World ?i ?h ?l)] =>
      rewrite (flush_fire W (World i h l) _ eq_refl)
  end.

(** A call to a throttler that last ran at the non-zero clock value [r]. *)
Ltac later_call r Hr :=
  match goal with
  | |- context [w_call (Throttle.throttle ?f ?lim) ?now ?args (World ?i ?h ?l)] =>
      rewrite (throttle_call_schedules f lim (World i h l) now args r eq_refl Hr)
  end;
  cbn -[Z.add Z.sub Z.max advance flush w_call fire_timer];
  rewrite to_int32_small by lia.

Section ThrottleScenario.
Context {A E : Type}.
Variable func : A -> outcome E.

(** C1 (as the code behaves). [throttle(fn, 100)] called at the clock
    values [e], [e+30], [e+60], [e+90] and [e+120], for a non-zero [e]:
    the callback runs for the first call, the timer of the call at [e+90]
    runs at [e+100] and does nothing, and the callback runs a second time
    at [e+120] with the arguments of the call made at [e+120]. *)
Theorem throttle_scenario_100 (e : Z) a0 a1 a2 a3 a4 :
  e <> 0 -> func a0 = Returned ->
  executions (Throttle.throttle func 100)
    [(e, a0); (e + 30, a1); (e + 60, a2); (e + 90, a3); (e + 120, a4)]
  = [Exec e a0 Direct; Exec (e + 120) a4 Scheduled].
Proof.
  intros He Hret. unfold executions, run. cbn [run_calls].
  rewrite (throttle_first_call _ _ _ _ Hret).
  do 3 (loop_step; later_call e He).
  loop_step. unfold fire_timer at 1.
  cbn -[Z.add Z.sub Z.max flush w_call Throttle.fire].
  erewrite (throttle_fire_skips _ _ _ _ _ _ e); [|reflexivity|lia].
  unfold Host.take, Host.drop. cbn -[Z.add Z.sub Z.max flush w_call].
  later_call e He.
  loop_step. unfold fire_timer. cbn -[Z.add Z.sub Z.max Throttle.fire].
  erewrite (proj1 (throttle_fire_runs _ _ _ _ _ _ e _ _)).
  - cbn [log app]. do 3 f_equal. lia.
  Unshelve. all: cbn; try reflexivity; lia.
Qed.

(** The same calls when the clock reads 0 at the first of them: [lastRan]
    is then 0, the call at 30 runs the callback in the wrapper body too,
    and the timers of the later calls do nothing. *)
Lemma throttle_scenario_100_epoch0 a0 a1 a2 a3 a4 :
  func a0 = Returned -> func a1 = Returned ->
  executions (Throttle.throttle func 100)
    [(0, a0); (30, a1); (60, a2); (90, a3); (120, a4)]
  = [Exec 0 a0 Direct; Exec 30 a1 Direct].
Proof.
  intros Hret0 Hret1. unfold executions, run. cbn [run_calls].
  rewrite (throttle_first_call _ _ _ _ Hret0).
  loop_step.
  match goal with
  | |- context [w_call ?W 30 a1 (World ?i ?h ?l)] =>
      rewrite (throttle_call_runs func 100 (World i h l) 30 a1 eq_refl)
  end.
  rewrite Hret1. cbn -[advance flush w_call fire_timer].
  assert (30 <> 0) as H30 by lia.
  do 3 (loop_step; later_call 30 H30).
  loop_step. unfold fire_timer. cbn -[Throttle.fire].
  erewrite (throttle_fire_skips _ _ _ _ _ _ 30); [reflexivity|reflexivity|lia].
Qed.
End ThrottleScenario.

(** C5 (as stated) fails for a throttler that has run before.
    [throttle(fn, 100)] ran its callback in a call at 1000 and nothing is
    pending, so at 1200 the instance is idle; yet a call at 1200 does not
    execute the callback, it sets a timer; and when a second call follows
    before the host has run that timer, the timer is cancelled: once the
    host has run every timer the callback was never executed with the
    arguments of the first of the two calls. *)
Lemma throttle_idle_call_not_immediate :
  idle 100 1200
    (play (Throttle.throttle returning 100) [Called 1000 0%nat]
       (init_world (Throttle.throttle returning 100))) /\
  log (play (Throttle.throttle returning 100)
         [Called 1000 0%nat; Called 1200 1%nat]
         (init_world (Throttle.throttle returning 100)))
  = [Exec 1000 0%nat Direct] /\
  log (play (Throttle.throttle returning 100)
         [Called 1000 0%nat; Called 1200 1%nat; Called 1200 2%nat;
          TimerRun 1201; TimerRun 1400]
         (init_world (Throttle.throttle returning 100)))
  = [Exec 1000 0%nat Direct; Exec 1201 2%nat Scheduled].
Proof.
  split; [split; [reflexivity|right; reflexivity]|]. split; reflexivity.
Qed.

(** ** debounce *)
Section DebounceFacts.
Context {A E : Type}.
Variable func : A -> outcome E.
Variable delay : Z.
Implicit Types (w : world A Debounce.vars A) (args : A).

Local Abbreviation deb := (Debounce.debounce func delay).

Lemma debounce_fire_timers t args w :
  timers (Debounce.fire func t args w).1 = timers w.
Proof. reflexivity. Qed.

Lemma last_cons {T : Type} (x d : T) (l : list T) :
  List.last (x :: l) d = List.last l x.
Proof.
  revert x d. induction l as [|y l IH]; intros x d; [reflexivity|].
  change (List.last (x :: y :: l) d) with (List.last (y :: l) d).
  now rewrite (IH y d), (IH y x).
Qed.

(** A call made before the pending timer is due replaces that timer. *)
Lemma armed_call t args w t' args' :
  0 <= delay <= 2147483647 -> armed delay t args w -> t' < t + delay ->
  armed delay t' args' (w_call deb t' args' (advance deb t' w)).1.
Proof.
  intros Hd (id & Hid & Hp & Hlog) Hlt.
  rewrite (advance_wait deb t' w _ Hp) by (cbn; lia).
  cbn. unfold Debounce.wrapped. rewrite Hid. cbn. rewrite Hp. cbn.
  rewrite Nat.eqb_refl. cbn. exists (Host.next_id (timers w)).
  repeat split; [|assumption].
  rewrite to_int32_small by lia. now rewrite Z.max_r by lia.
Qed.

Lemma armed_run_calls (cs : list (Z * A)) : forall t args w,
  0 <= delay <= 2147483647 -> close_calls delay t cs = true ->
  armed delay t args w ->
  armed delay (List.last cs (t, args)).1 (List.last cs (t, args)).2
        (run_calls deb cs w).
Proof.
  induction cs as [|[t' args'] cs IH]; intros t args w Hd Hcs Harm.
  - exact Harm.
  - cbn in Hcs. apply andb_prop in Hcs as [Hcs Hrest].
    apply andb_prop in Hcs as [_ Hlt]. apply Z.ltb_lt in Hlt.
    rewrite last_cons. cbn [run_calls]. apply IH; [assumption..|].
    now apply (armed_call t args).
Qed.

(** C4 (amended). [N >= 1] calls to a debounced function, each less than
    [delay] after the one before it, for a [delay] from 0 to 2^31 - 1:
    once the timers have run, the callback has been executed exactly
    once, [delay] after the last call and with the last call's arguments;
    and when the host runs the timer late, at a clock value [u], that one
    execution takes place at [u]. *)
Theorem debounce_burst_once (c : Z * A) (cs : list (Z * A)) :
  0 <= delay <= 2147483647 -> close_calls delay c.1 cs = true ->
  executions deb (c :: cs)
  = [Exec ((List.last cs c).1 + delay) (List.last cs c).2 Scheduled] /\
  forall u, (List.last cs c).1 + delay <= u ->
    log (run_timer_at deb u (run_calls deb (c :: cs) (init_world deb)))
    = [Exec u (List.last cs c).2 Scheduled] /\
    Host.pending
      (timers (run_timer_at deb u (run_calls deb (c :: cs) (init_world deb))))
    = [].
Proof.
  intros Hd Hcs. destruct c as [t0 a0]. unfold executions, run. cbn [run_calls].
  rewrite (advance_idle deb t0 (init_world deb) eq_refl).
  assert (armed delay t0 a0 (w_call deb t0 a0 (init_world deb)).1) as Harm.
  { exists 1%nat. cbn. rewrite to_int32_small by lia.
    now rewrite Z.max_r by lia. }
  destruct (armed_run_calls cs t0 a0 _ Hd Hcs Harm) as (id & _ & Hp & Hlog).
  split.
  - rewrite (flush_fire deb _ _ Hp). unfold fire_timer.
    cbn [w_fire Debounce.debounce Debounce.fire invoke fst log
         Host.t_due Host.t_body].
    now rewrite Hlog.
  - intros u Hu. rewrite (run_timer_at_fire deb u _ _ Hp) by (cbn; lia).
    cbn [w_fire Debounce.debounce Debounce.fire invoke fst log timers
         Host.t_due Host.t_body].
    rewrite Hlog. split; [reflexivity|].
    unfold Host.take, Host.drop. cbn [Host.pending Host.t_id]. rewrite Hp.
    cbn. now rewrite Nat.eqb_refl.
Qed.
End DebounceFacts.

(** C4 (as stated) fails for a delay that does not fit in 32 bits.  With
    [delay] 2^31 the host takes the delay for a negative one, so the timer
    of each call is due at once: of two calls 10 ms apart, far less than
    [delay], the first has been served when the second is made, and the
    callback is executed twice. *)
Lemma debounce_large_delay_runs_every_call :
  close_calls 2147483648 0 [(10, 1%nat)] = true /\
  executions (Debounce.debounce returning 2147483648)
    [(0, 0%nat); (10, 1%nat)]
  = [Exec 0 0%nat Scheduled; Exec 10 1%nat Scheduled].
Proof. split; reflexivity. Qed.

(** ** Both wrappers *)
Section WrapperFacts.
Context {A E : Type}.
Variable func : A -> outcome E.
Variable ms : Z.

Lemma debounce_one_pending w :
  reachable (Debounce.debounce func ms) w ->
  one_pending (Debounce.timeout (inst w)) (timers w).
Proof.
  induction 1 as [|w now args _ IH|w tm _ IH Hin].
  - split; [cbn; lia|reflexivity].
  - cbn. unfold Debounce.wrapped.
    apply (one_pending_clear_set _ _ args ms now), IH.
  - cbn. now apply one_pending_take.
Qed.

Lemma throttle_one_pending w :
  reachable (Throttle.throttle func ms) w ->
  one_pending (Throttle.lastFunc (inst w)) (timers w).
Proof.
  induction 1 as [|w now args _ IH|w tm _ IH Hin].
  - split; [cbn; lia|reflexivity].
  - cbn. unfold Throttle.wrapped.
    destruct (Throttle.not_ran _).
    + unfold andThen, invoke, Throttle.set_lastRan. now destruct (func args).
    + apply (one_pending_clear_set _ _ (now, args)), IH.
  - unfold fire_timer. cbn. unfold Throttle.fire.
    destruct (Host.t_body tm) as [now args].
    destruct (Throttle.window_over _ _ _).
    + unfold andThen, invoke, Throttle.set_lastRan.
      destruct (func args); now apply one_pending_take.
    + now apply one_pending_take.
Qed.

(** C6. In every state a debouncer or a throttler can reach, whatever the
    calls and whenever the timers run, at most one timer of the instance
    is pending, and it is the one the instance's handle variable names:
    the [clearTimeout] that precedes each [setTimeout] leaves no timer
    pending. *)
Theorem at_most_one_timer :
  (forall w, reachable (Debounce.debounce func ms) w ->
     (length (Host.pending (timers w)) <= 1)%nat /\
     Host.pending (Host.clearTimeout (Debounce.timeout (inst w)) (timers w)) = []) /\
  (forall w, reachable (Throttle.throttle func ms) w ->
     (length (Host.pending (timers w)) <= 1)%nat /\
     Host.pending (Host.clearTimeout (Throttle.lastFunc (inst w)) (timers w)) = []).
Proof.
  split; intros w Hw.
  - now apply debounce_one_pending.
  - now apply throttle_one_pending.
Qed.

(** The leading execution of a throttler runs inside the call itself, so
    an exception there does reach the caller, and [lastRan] stays unset. *)
Lemma throttle_leading_exception w now args x :
  Throttle.not_ran (Throttle.lastRan (inst w)) = true ->
  func args = Threw x ->
  (Throttle.wrapped func ms now args w).2 = Threw x /\
  inst (Throttle.wrapped func ms now args w).1 = inst w.
Proof.
  intros Hnr Hx. unfold Throttle.wrapped. rewrite Hnr.
  unfold andThen, invoke. now rewrite Hx.
Qed.

(** C7. Neither wrapper catches what the callback throws in a scheduled
    execution.  A call that schedules a timer returns normally to its
    caller (every call to a debounced function; a call to a throttled
    function made once [lastRan] is set), and when the timer's callback
    runs [func] and [func] throws, the exception is the outcome of the
    timer callback, which the host invoked. *)
Theorem scheduled_exception_propagates :
  (forall now (args : A) w,
     (Debounce.wrapped (E:=E) ms now args w).2 = Returned) /\
  (forall t args w x,
     func args = Threw x ->
     (Debounce.fire func t args w).2 = Threw x) /\
  (forall now args w,
     Throttle.not_ran (Throttle.lastRan (inst w)) = false ->
     (Throttle.wrapped func ms now args w).2 = Returned) /\
  (forall t now args w x,
     Throttle.window_over ms now (Throttle.lastRan (inst w)) = true ->
     func args = Threw x ->
     (Throttle.fire func ms t (now, args) w).2 = Threw x).
Proof.
  repeat split.
  - intros t args w x Hx. exact Hx.
  - intros now args w Hnr. unfold Throttle.wrapped. now rewrite Hnr.
  - intros t now args w x Hover Hx. unfold Throttle.fire. rewrite Hover.
    unfold andThen, invoke. now rewrite Hx.
Qed.
End WrapperFacts.

(** ** Property lists *)
Section PropFacts.
Implicit Types (k : string) (v : value) (ps dst src : list (string * value)).










End PropFacts.


(** ** The store *)
Section StoreFacts.
Implicit Types (h : list object) (o : object) (l : nat) (k : string) (v : value).










End StoreFacts.

(** ** mergeObjects *)
Section MergeFacts.
Implicit Types (h : list object) (o : object) (l : nat) (k key : string).






(** The depth allowed only matters when it is used up: a call that
    returns returns the same with more. *)
Lemma merge_key_mono rec1 rec2 target source h key h2 :
  (forall tv sv h0 r, rec1 tv sv h0 = Ok r -> rec2 tv sv h0 = Ok r) ->
  merge_key rec1 target source h key = Ok h2 ->
  merge_key rec2 target source h key = Ok h2.
Proof.
  intros Hmono. unfold merge_key.
  destruct (get h source key) as [sv|]; cbn; [|discriminate].
  destruct (instanceof_Object sv); [|auto].
  destruct (has_property h target key) as [[|]|]; cbn; [|auto|discriminate].
  destruct (get h target key) as [tv|]; cbn; [|discriminate].
  destruct (rec1 tv sv h) as [r|] eqn:Hcall; cbn; [|discriminate].
  now rewrite (Hmono _ _ _ _ Hcall).
Qed.

Lemma for_in_mono body1 body2 keys : forall h h2,
  (forall h0 key h1, body1 h0 key = Ok h1 -> body2 h0 key = Ok h1) ->
  for_in body1 keys h = Ok h2 -> for_in body2 keys h = Ok h2.
Proof.
  induction keys as [|key keys IH]; intros h h2 Hmono; cbn; [auto|].
  destruct (body1 h key) as [h1|] eqn:Hstep; cbn; [|discriminate].
  rewrite (Hmono _ _ _ Hstep). cbn. now apply IH.
Qed.

Lemma mergeObjects_more_stack stack : forall target source h r,
  mergeObjects stack target source h = Ok r ->
  mergeObjects (S stack) target source h = Ok r.
Proof.
  induction stack as [|stack IH]; intros target source h r; [discriminate|].
  intros Hcall. cbn [mergeObjects] in Hcall |- *.
  destruct (for_in (merge_key (mergeObjects stack) target source) _ h)
    as [h1|] eqn:Hloop; cbn in Hcall; [|discriminate].
  erewrite for_in_mono; [exact Hcall| |exact Hloop].
  intros h0 key h2. apply merge_key_mono. exact IH.
Qed.

Lemma has_own_keys (ps : list (string * value)) k :
  In k (map fst ps) -> has_own k ps = true.
Proof.
  unfold has_own. induction ps as [|[k0 x0] ps IH]; cbn; [tauto|].
  intros [->|Hin].
  - now destruct (decide (k = k)).
  - destruct (decide (k = k0)); [reflexivity|]. now apply IH.
Qed.

(** When no property of [source] is an object the loop does nothing: the
    call returns the spread and leaves the caller's objects alone. *)
Lemma mergeObjects_flat stack target source h :
  (forall k x, get_own k (own_props h source) = Some x ->
               instanceof_Object x = false) ->
  mergeObjects (S stack) target source h = Ok (spread2 h target source).
Proof.
  intros Hflat. cbn [mergeObjects].
  assert (forall keys,
            (forall k, In k keys -> has_own k (own_props h source) = true) ->
            for_in (merge_key (mergeObjects stack) target source) keys h = Ok h)
    as Hloop.
  { induction keys as [|key keys IH]; intros Hkeys; [reflexivity|]. cbn.
    assert (merge_key (mergeObjects stack) target source h key = Ok h) as ->.
    { pose proof (Hkeys key (or_introl eq_refl)) as Hk. unfold has_own in Hk.
      destruct (get_own key (own_props h source)) as [x|] eqn:Hx; [|discriminate].
      unfold merge_key, get.
      destruct source; try discriminate; rewrite Hx; cbn;
        now rewrite (Hflat key x Hx). }
    cbn. apply IH. intros k Hin. apply Hkeys. now right. }
  rewrite Hloop; [reflexivity|]. apply has_own_keys.
Qed.







End MergeFacts.


(** ** isEmpty *)

(** C10. [isEmpty] throws a TypeError for [null] and for [undefined]; for
    every other argument it returns, and returns true exactly when the
    argument has no own enumerable property; so it returns true for the
    empty object and for the empty array. *)
Theorem isEmpty_spec (h : list object) :
  isEmpty h VNull = Throw TypeError /\
  isEmpty h VUndefined = Throw TypeError /\
  (forall v, v <> VNull -> v <> VUndefined ->
     exists b, isEmpty h v = Ok b /\ (b = true <-> own_props h v = [])) /\
  (forall l, h !! l = Some (Obj false []) -> isEmpty h (VRef l) = Ok true) /\
  (forall l, h !! l = Some (Obj true []) -> isEmpty h (VRef l) = Ok true).
Proof.
  repeat split; try reflexivity.
  - intros v Hnull Hundef.
    exists (Nat.eqb (length (map fst (own_props h v))) 0).
    split; [now destruct v|].
    rewrite Nat.eqb_eq, length_map. apply length_zero_iff_nil.
  - intros l Hl. cbn. now rewrite Hl.
  - intros l Hl. cbn. now rewrite Hl.
Qed.

(** * The statements at concrete inputs *)


Lemma throttle_scenario_100_witness :
  1000 <> 0 /\ returning 0%nat = Returned /\
  executions (Throttle.throttle returning 100)
    [(1000, 0%nat); (1000 + 30, 1%nat); (1000 + 60, 2%nat);
     (1000 + 90, 3%nat); (1000 + 120, 4%nat)]
  = [Exec 1000 0%nat Direct; Exec (1000 + 120) 4%nat Scheduled].
Proof.
  split; [lia|]. split; [reflexivity|].
  apply (throttle_scenario_100 returning 1000); [lia|reflexivity].
Defined.

Lemma throttle_final_call_dropped_witness :
  Host.pending (timers (run (Throttle.throttle returning 100)
                            [(1000, 0%nat); (1030, 1%nat)])) = [] /\
  ~ In 1%nat (map ex_args (executions (Throttle.throttle returning 100)
                             [(1000, 0%nat); (1030, 1%nat)])).
Proof.
  apply (throttle_final_call_dropped returning 100 1000 0%nat [(1030, 1%nat)]);
    [lia|reflexivity|reflexivity|cbn; lia].
Defined.

Lemma throttle_burst_one_execution_witness :
  executions (Throttle.throttle returning 100)
    [(1000, 0%nat); (1030, 1%nat); (1060, 2%nat)]
  = [Exec 1000 0%nat Direct] /\
  length (executions (Throttle.throttle returning 100)
            [(1000, 0%nat); (1030, 1%nat); (1060, 2%nat)]) = 1%nat.
Proof.
  apply (throttle_burst_one_execution returning 100 1000 0%nat
           [(1030, 1%nat); (1060, 2%nat)]);
    [lia|reflexivity|discriminate|reflexivity].
Defined.

Lemma debounce_burst_once_witness :
  executions (Debounce.debounce returning 50)
    [(0, 0%nat); (10, 1%nat); (20, 2%nat)]
  = [Exec 70 2%nat Scheduled] /\
  log (run_timer_at (Debounce.debounce returning 50) 75
         (run_calls (Debounce.debounce returning 50)
            [(0, 0%nat); (10, 1%nat); (20, 2%nat)]
            (init_world (Debounce.debounce returning 50))))
  = [Exec 75 2%nat Scheduled].
Proof.
  destruct (debounce_burst_once returning 50 (0, 0%nat)
              [(10, 1%nat); (20, 2%nat)]) as [Hpunctual Hlate];
    [lia|reflexivity|].
  split; [exact Hpunctual|]. apply Hlate. cbn. lia.
Defined.

(** A new throttler runs the callback in the call; one that ran at 1000
    and is called at 1200 runs it when the host runs the timer, here at
    1250. *)
Lemma throttle_idle_call_witness :
  idle 100 1200 (ran_at 1000) /\
  log (w_call (Throttle.throttle returning 100) 1200 1%nat (ran_at 1000)).1
  = [Exec 1000 0%nat Direct] /\
  log (run_timer_at (Throttle.throttle returning 100) 1250
         (w_call (Throttle.throttle returning 100) 1200 1%nat (ran_at 1000)).1)
  = [Exec 1000 0%nat Direct; Exec 1250 1%nat Scheduled] /\
  executions (Throttle.throttle returning 100) [(1200, 1%nat)]
  = [Exec 1200 1%nat Direct].
Proof.
  assert (idle 100 1200 (ran_at 1000)) as Hidle
    by (split; [reflexivity|right; reflexivity]).
  split; [exact Hidle|].
  destruct (throttle_idle_call returning 100 _ 1200 1%nat Hidle)
    as (_ & Hlater & Hsingle).
  destruct (Hlater 1000 eq_refl) as (Hcall & _ & Hrun); [lia|lia|].
  split; [exact Hcall|]. split; [|exact Hsingle].
  apply Hrun. lia.
Defined.

Lemma at_most_one_timer_witness :
  reachable (Debounce.debounce returning 50)
    (w_call (Debounce.debounce returning 50) 10 1%nat
       (w_call (Debounce.debounce returning 50) 0 0%nat
          (init_world (Debounce.debounce returning 50))).1).1 /\
  (length (Host.pending (timers
     (w_call (Debounce.debounce returning 50) 10 1%nat
        (w_call (Debounce.debounce returning 50) 0 0%nat
           (init_world (Debounce.debounce returning 50))).1).1)) <= 1)%nat.
Proof.
  assert (reachable (Debounce.debounce returning 50)
    (w_call (Debounce.debounce returning 50) 10 1%nat
       (w_call (Debounce.debounce returning 50) 0 0%nat
          (init_world (Debounce.debounce returning 50))).1).1) as Hreach
    by (do 2 apply reach_call; apply reach_init).
  split; [exact Hreach|].
  exact (proj1 (proj1 (at_most_one_timer returning 50) _ Hreach)).
Defined.

Lemma scheduled_exception_propagates_witness :
  throwing 7%nat = Threw tt /\
  (Debounce.fire throwing 50 7%nat
     (init_world (Debounce.debounce throwing 50))).2 = Threw tt.
Proof.
  split; [reflexivity|].
  apply (proj1 (proj2 (scheduled_exception_propagates throwing 50))).
  reflexivity.
Defined.

Lemma throttle_zero_clock_runs_again_witness :
  Throttle.lastRan (inst (ran_at 0)) = Some 0 /\
  log (w_call (Throttle.throttle returning 100) 30 1%nat (ran_at 0)).1
  = [Exec 0 0%nat Direct; Exec 30 1%nat Direct].
Proof.
  split; [reflexivity|].
  apply (proj1 (throttle_zero_clock_runs_again returning 100)). reflexivity.
Defined.


Lemma isEmpty_spec_witness :
  VNum 5 <> VNull /\ VNum 5 <> VUndefined /\
  exists b, isEmpty [] (VNum 5) = Ok b /\ (b = true <-> own_props [] (VNum 5) = []).
Proof.
  split; [discriminate|]. split; [discriminate|].
  apply (proj1 (proj2 (proj2 (isEmpty_spec [])))); discriminate.
Defined.

(** * Further properties *)

(** ** debounce: calls served one by one *)
Section DebounceFar.
Context {A E : Type}.
Variable func : A -> outcome E.
Variable delay : Z.
Implicit Types (w : world A Debounce.vars A) (args : A).

Local Abbreviation deb := (Debounce.debounce func delay).

(** A call made with no timer pending, and the host running its timer. *)
Lemma debounce_visit w (v : visit A) :
  0 <= delay <= 2147483647 -> called_at v + delay <= timer_at v ->
  Host.pending (timers w) = [] ->
  log (play deb (attended [v]) w) = log w ++ [by_timer v] /\
  Host.pending (timers (play deb (attended [v]) w)) = [].
Proof.
  intros Hd Hv Hp. destruct w as [[handle] [n ps] l]. cbn in Hp. subst ps.
  cbn [attended flat_map app play w_call Debounce.debounce].
  unfold Debounce.wrapped.
  destruct handle as [id|]; cbn -[run_timer_at Z.add Z.max];
    rewrite to_int32_small by lia; timer_step;
    cbn; unfold Host.take, Host.drop; cbn; now rewrite Nat.eqb_refl.
Qed.

Lemma debounce_visits (vs : list (visit A)) : forall w,
  0 <= delay <= 2147483647 -> waited delay vs = true ->
  Host.pending (timers w) = [] ->
  log (play deb (attended vs) w) = log w ++ map by_timer vs /\
  Host.pending (timers (play deb (attended vs) w)) = [].
Proof.
  induction vs as [|v vs IH]; intros w Hd Hvs Hp.
  - cbn. now rewrite app_nil_r.
  - cbn in Hvs. apply andb_prop in Hvs as [Hv Hvs]. apply Z.leb_le in Hv.
    change (attended (v :: vs)) with (attended [v] ++ attended vs).
    rewrite play_app.
    destruct (debounce_visit w v Hd Hv Hp) as [Hlog Hp'].
    destruct (IH _ Hd Hvs Hp') as [Hlog2 Hp2].
    split; [|exact Hp2]. rewrite Hlog2, Hlog. cbn [map].
    now rewrite <- app_assoc.
Qed.

(** X1. When the host runs the timer of each call to a debounced function
    before the next call is made ([delay] ms or more after the call, for a
    [delay] from 0 to 2^31 - 1), every call is served: N calls give N
    executions, one for each call, with its arguments, at the clock value
    at which the host ran its timer, in the order of the calls; and no
    timer is left. *)
Theorem debounce_far_calls_all_run (vs : list (visit A)) :
  0 <= delay <= 2147483647 -> waited delay vs = true ->
  log (play deb (attended vs) (init_world deb)) = map by_timer vs /\
  Host.pending (timers (play deb (attended vs) (init_world deb))) = [].
Proof.
  intros Hd Hvs. now apply (debounce_visits vs (init_world deb)).
Qed.
End DebounceFar.

(** ** Executions are owed to calls *)
Section Accounting.
Context {A E S B : Type}.
Variable W : wrapper A E S B.
Variable args_of : B -> A.
Implicit Types (w : world A S B) (calls cs : list (Z * A)).

Lemma from_call_more calls c t a :
  from_call calls t a -> from_call (calls ++ [c]) t a.
Proof.
  intros (c0 & Hin & Ha & Ht). exists c0. split; [|auto].
  apply in_or_app. now left.
Qed.

Lemma from_call_last calls t' t a :
  t <= t' -> from_call (calls ++ [(t, a)]) t' a.
Proof.
  intros Hle. exists (t, a). split; [|auto].
  apply in_or_app. right. now left.
Qed.

(** A wrapper whose timers and calls keep the account keeps it over a
    whole run. *)
Lemma run_calls_accounted :
  (forall calls w tm, accounted args_of calls w ->
     In tm (Host.pending (timers w)) ->
     accounted args_of calls (fire_timer W tm w).1) ->
  (forall calls w now args, accounted args_of calls w ->
     accounted args_of (calls ++ [(now, args)]) (w_call W now args w).1) ->
  forall cs calls w, accounted args_of calls w ->
    accounted args_of (calls ++ cs) (run_calls W cs w).
Proof.
  intros Hfire Hcall cs.
  induction cs as [|[now args] cs IH]; intros calls w Hacc; cbn [run_calls].
  - now rewrite app_nil_r.
  - replace (calls ++ (now, args) :: cs) with ((calls ++ [(now, args)]) ++ cs)
      by (now rewrite <- app_assoc).
    apply IH, Hcall. unfold advance.
    apply (run_timers_inv W (accounted args_of calls)); [apply Hfire|assumption].
Qed.

Lemma run_accounted :
  (forall calls w tm, accounted args_of calls w ->
     In tm (Host.pending (timers w)) ->
     accounted args_of calls (fire_timer W tm w).1) ->
  (forall calls w now args, accounted args_of calls w ->
     accounted args_of (calls ++ [(now, args)]) (w_call W now args w).1) ->
  forall cs,
    (length (executions W cs) <= length cs)%nat /\
    forall e, In e (executions W cs) ->
      exists c, In c cs /\ c.2 = ex_args e /\ c.1 <= ex_time e.
Proof.
  intros Hfire Hcall cs.
  assert (accounted args_of cs (run W cs)) as (Hlen & Hlog & _).
  { unfold run, flush.
    apply (run_timers_inv W (accounted args_of cs)); [apply Hfire|].
    apply (run_calls_accounted Hfire Hcall cs [] (init_world W)).
    repeat split; cbn; [lia|constructor|constructor]. }
  split; [unfold executions; lia|].
  intros e Hin. rewrite List.Forall_forall in Hlog. exact (Hlog e Hin).
Qed.
End Accounting.

Section WrapperAccounts.
Context {A E : Type}.
Variable func : A -> outcome E.
Variable ms : Z.

Lemma accounted_take {S B : Type} (args_of : B -> A) calls
    (w : world A S B) tm (e : exec A) (i : S) :
  accounted args_of calls w -> In tm (Host.pending (timers w)) ->
  ex_time e = Host.t_due tm -> ex_args e = args_of (Host.t_body tm) ->
  accounted args_of calls
    (World i (Host.take tm (timers w)) (log w ++ [e])).
Proof.
  intros (Hlen & Hlog & Hpend) Hin Ht Ha.
  pose proof (drop_length_In tm _ Hin) as Hdrop.
  rewrite List.Forall_forall in Hpend.
  repeat split; cbn.
  - rewrite length_app. cbn. lia.
  - apply Forall_app. split; [assumption|].
    constructor; [|constructor]. rewrite Ht, Ha. now apply Hpend.
  - apply List.Forall_forall. intros tm' Hin'. apply drop_In in Hin' as [Hin' _].
    now apply Hpend.
Qed.

Lemma accounted_skip {S B : Type} (args_of : B -> A) calls
    (w : world A S B) tm (i : S) :
  accounted args_of calls w -> In tm (Host.pending (timers w)) ->
  accounted args_of calls (World i (Host.take tm (timers w)) (log w)).
Proof.
  intros (Hlen & Hlog & Hpend) Hin.
  pose proof (drop_length_In tm _ Hin) as Hdrop.
  rewrite List.Forall_forall in Hpend.
  repeat split; cbn; [lia|assumption|].
  apply List.Forall_forall. intros tm' Hin'. apply drop_In in Hin' as [Hin' _].
  now apply Hpend.
Qed.

Lemma accounted_schedule {S B : Type} (args_of : B -> A) calls
    (w : world A S B) handle body delay now (i : S) :
  accounted args_of calls w ->
  accounted args_of (calls ++ [(now, args_of body)])
    (World i (Host.setTimeout body delay now
                (Host.clearTimeout handle (timers w))).2 (log w)).
Proof.
  intros (Hlen & Hlog & Hpend).
  assert (length (Host.pending (Host.clearTimeout handle (timers w)))
          <= length (Host.pending (timers w)))%nat as Hclr.
  { destruct handle; cbn; [apply drop_length|lia]. }
  rewrite List.Forall_forall in Hlog, Hpend.
  repeat split; cbn.
  - rewrite !length_app. cbn. lia.
  - apply List.Forall_forall. intros e He. now apply from_call_more, Hlog.
  - apply Forall_app. split.
    + apply List.Forall_forall. intros tm Hin. apply from_call_more, Hpend.
      destruct handle; cbn in Hin; [|assumption].
      now apply drop_In in Hin as [Hin _].
    + constructor; [|constructor]. cbn. apply from_call_last. lia.
Qed.

(** X2. However the calls to a debounced function are timed, the callback
    is executed at most as many times as the function was called, and
    every execution has the arguments of one of the calls and does not
    come before that call. *)
Theorem debounce_executions_from_calls (cs : list (Z * A)) :
  (length (executions (Debounce.debounce func ms) cs) <= length cs)%nat /\
  forall e, In e (executions (Debounce.debounce func ms) cs) ->
    exists c, In c cs /\ c.2 = ex_args e /\ c.1 <= ex_time e.
Proof.
  apply (run_accounted (Debounce.debounce func ms) (fun a => a)).
  - intros calls w tm Hacc Hin. unfold fire_timer. cbn.
    now apply (accounted_take (fun a => a) calls w tm).
  - intros calls w now args Hacc. cbn. unfold Debounce.wrapped.
    apply (accounted_schedule (fun a => a) calls w _ args ms now), Hacc.
Qed.

(** X3. The same for a throttled function: never more executions than
    calls, and each with the arguments of a call made no later than the
    execution. *)
Theorem throttle_executions_from_calls (cs : list (Z * A)) :
  (length (executions (Throttle.throttle func ms) cs) <= length cs)%nat /\
  forall e, In e (executions (Throttle.throttle func ms) cs) ->
    exists c, In c cs /\ c.2 = ex_args e /\ c.1 <= ex_time e.
Proof.
  apply (run_accounted (Throttle.throttle func ms) snd).
  - intros calls w tm Hacc Hin. unfold fire_timer. cbn. unfold Throttle.fire.
    destruct (Host.t_body tm) as [now args] eqn:Hbody. cbn.
    destruct (Throttle.window_over _ _ _).
    + unfold andThen, invoke, Throttle.set_lastRan. cbn.
      destruct (func args); cbn;
        apply (accounted_take snd calls w tm); auto; cbn; now rewrite Hbody.
    + now apply (accounted_skip snd calls w tm).
  - intros calls w now args Hacc. cbn. unfold Throttle.wrapped.
    destruct (Throttle.not_ran _).
    + destruct Hacc as (Hlen & Hlog & Hpend).
      rewrite List.Forall_forall in Hlog, Hpend.
      assert (accounted snd (calls ++ [(now, args)])
                (World (inst w) (timers w) (log w ++ [Exec now args Direct])))
        as Hacc'.
      { repeat split; cbn.
        - rewrite !length_app. cbn. lia.
        - apply Forall_app. split.
          + apply List.Forall_forall. intros e He. now apply from_call_more, Hlog.
          + constructor; [|constructor]. cbn. apply from_call_last. lia.
        - apply List.Forall_forall. intros tm Hin. now apply from_call_more, Hpend. }
      unfold andThen, invoke, Throttle.set_lastRan.
      destruct (func args); exact Hacc'.
    + apply (accounted_schedule snd calls w _ (now, args)), Hacc.
Qed.
End WrapperAccounts.

(** ** throttle: once per interval *)
Section ThrottlePace.
Context {A E : Type}.
Variable func : A -> outcome E.
Variable limit : Z.
Variable stamp : A -> Z.
Implicit Types (w : world A Throttle.vars (Z * A)) (args : A).

Local Abbreviation thr := (Throttle.throttle func limit).

Lemma spaced_cons2 a b ts :
  spaced limit (a :: b :: ts) = (limit <=? b - a) && spaced limit (b :: ts).
Proof. reflexivity. Qed.

Lemma spaced_snoc ts r t :
  spaced limit (ts ++ [r]) = true -> limit <= t - r ->
  spaced limit ((ts ++ [r]) ++ [t]) = true.
Proof.
  intros Hs Hle. rewrite <- app_assoc. cbn [app].
  induction ts as [|x ts IH].
  - cbn [app]. rewrite spaced_cons2. cbn. rewrite andb_true_r. now apply Z.leb_le.
  - destruct ts as [|y ts]; cbn [app] in Hs, IH |- *;
      rewrite spaced_cons2 in Hs; rewrite spaced_cons2;
      apply andb_prop in Hs as [Hx Hrest]; rewrite Hx; cbn [andb];
      now apply IH.
Qed.

(** A timer, whenever the host runs it. *)
Lemma paced_fire w t tm :
  (forall a, func a = Returned) ->
  paced stamp limit w -> In tm (Host.pending (timers w)) ->
  paced stamp limit
    (w_fire thr t (Host.t_body tm)
       (World (inst w) (Host.take tm (timers w)) (log w))).1.
Proof.
  intros Hret (Hsp & Hran & Hpend) Hin.
  assert (Forall (fun tm' => (Host.t_body tm').1 <> 0 /\
                             stamp (Host.t_body tm').2 = (Host.t_body tm').1)
            (Host.pending (Host.take tm (timers w)))) as Hpend'.
  { rewrite List.Forall_forall in Hpend. apply List.Forall_forall.
    intros tm' Hin'. apply drop_In in Hin' as [Hin' _]. now apply Hpend. }
  rewrite List.Forall_forall in Hpend. destruct (Hpend tm Hin) as [Hnow Hst].
  cbn. unfold Throttle.fire.
  destruct (Host.t_body tm) as [now args]. cbn in Hnow, Hst. cbn [inst].
  destruct (Throttle.lastRan (inst w)) as [r|] eqn:Hr; cbn.
  - destruct Hran as (Hr0 & l & e & Hlog & He).
    destruct (limit <=? now - r) eqn:Hover.
    + apply Z.leb_le in Hover. unfold andThen, invoke. rewrite Hret. cbn.
      unfold paced. cbn [log inst timers Throttle.lastRan].
      repeat split; [|assumption| |assumption].
      * rewrite Hlog, !map_app. cbn. rewrite He, Hst. apply spaced_snoc; [|lia].
        rewrite Hlog, map_app in Hsp. cbn in Hsp. now rewrite He in Hsp.
      * exists (log w), (Exec t args Scheduled). now split.
    + unfold paced. cbn [log inst timers fst]. rewrite Hr. eauto 10.
  - unfold paced. cbn [log inst timers fst]. rewrite Hr. auto.
Qed.

Lemma paced_call w now args :
  (forall a, func a = Returned) ->
  paced stamp limit w -> now <> 0 -> stamp args = now ->
  paced stamp limit (w_call thr now args w).1.
Proof.
  intros Hret (Hsp & Hran & Hpend) Hnow Hst. cbn. unfold Throttle.wrapped.
  destruct (Throttle.lastRan (inst w)) as [r|] eqn:Hr; cbn.
  - destruct Hran as (Hr0 & Hlast).
    replace (r =? 0) with false by lia. cbn.
    unfold paced. cbn [log inst timers Throttle.lastRan].
    repeat split; [assumption..|]. unfold Host.setTimeout. cbn [snd Host.pending].
    apply Forall_app. split.
    + rewrite List.Forall_forall in Hpend. apply List.Forall_forall.
      intros tm Hin. apply Hpend.
      destruct (Throttle.lastFunc (inst w)); cbn in Hin; [|assumption].
      now apply drop_In in Hin as [Hin _].
    + constructor; [|constructor]. now split.
  - unfold andThen, invoke. rewrite Hret. cbn.
    unfold paced. cbn [log inst timers Throttle.lastRan]. rewrite Hran.
    repeat split; [assumption| |assumption].
    now exists [], (Exec now args Direct).
Qed.

(** X4. With a callback that returns and a clock that never reads 0 at a
    call, the calls that a throttled function serves were made at least
    [limit] apart, whatever the schedule (calls made before a due timer
    has run, timers run late): when every call carries the clock value
    read by it, the values received by any two consecutive executions are
    at least [limit] apart.  (The executions themselves can be closer when
    the host runs a timer late.) *)
Theorem throttle_served_calls_spaced (evs : list (event A)) :
  (forall a, func a = Returned) ->
  Forall (stamped stamp) evs ->
  spaced limit
    (map (fun e => stamp (ex_args e)) (log (play thr evs (init_world thr))))
  = true.
Proof.
  intros Hret Hevs.
  assert (paced stamp limit (play thr evs (init_world thr))) as (Hsp & _);
    [|exact Hsp].
  apply (play_inv thr (paced stamp limit) (stamped stamp)).
  - intros. now apply paced_fire.
  - intros w now args Hw [Hnow Hst]. now apply paced_call.
  - assumption.
  - repeat split. constructor.
Qed.

(** A call made [limit] or more after the call served last, and the host
    running its timer. *)
Lemma throttle_visit w (v : visit A) r :
  (forall a, func a = Returned) ->
  Throttle.lastRan (inst w) = Some r -> r <> 0 ->
  Host.pending (timers w) = [] ->
  limit <= called_at v - r -> called_at v - r - limit <= 2147483648 ->
  called_at v <= timer_at v ->
  Throttle.lastRan (inst (play thr (attended [v]) w)) = Some (called_at v) /\
  Host.pending (timers (play thr (attended [v]) w)) = [] /\
  log (play thr (attended [v]) w) = log w ++ [by_timer v].
Proof.
  intros Hret Hr Hr0 Hp Hover Hfit Hrun.
  cbn [attended flat_map app play].
  rewrite (throttle_call_after_interval func limit w _ (called_with v) r)
    by assumption.
  rewrite (throttle_timer_after_interval func limit _ _ _ _ _ r)
    by (auto; reflexivity).
  now repeat split.
Qed.

Lemma throttle_visits (vs : list (visit A)) : forall w r,
  (forall a, func a = Returned) ->
  Throttle.lastRan (inst w) = Some r -> r <> 0 ->
  Host.pending (timers w) = [] ->
  apart_visits limit r vs = true ->
  log (play thr (attended vs) w) = log w ++ map by_timer vs /\
  Host.pending (timers (play thr (attended vs) w)) = [].
Proof.
  induction vs as [|v vs IH]; intros w r Hret Hr Hr0 Hp Hvs.
  - cbn. now rewrite app_nil_r.
  - cbn in Hvs. apply andb_prop in Hvs as [Hvs Hrest].
    apply andb_prop in Hvs as [Hvs Hrun]. apply andb_prop in Hvs as [Hvs Hfit].
    apply andb_prop in Hvs as [Hnz Hover].
    apply negb_true_iff, Z.eqb_neq in Hnz.
    apply Z.leb_le in Hover, Hfit, Hrun.
    change (attended (v :: vs)) with (attended [v] ++ attended vs).
    rewrite play_app.
    destruct (throttle_visit w v r Hret Hr Hr0 Hp Hover Hfit Hrun)
      as (Hr' & Hp' & Hlog).
    destruct (IH _ _ Hret Hr' Hnz Hp' Hrest) as [Hlog2 Hp2].
    split; [|exact Hp2]. rewrite Hlog2, Hlog. cbn [map].
    now rewrite <- app_assoc.
Qed.

(** X5. With a callback that returns and a clock that never reads 0 at a
    call, calls to a throttled function that are each [limit] or more
    after the one before it (and no more than [limit] + 2^31) are all
    served when the host runs the timer of each call before the next call
    is made: the first in the body of the call, each of the others when
    the host runs its timer, with the arguments of the call and in the
    order of the calls. *)
Theorem throttle_apart_calls_all_run (c : Z * A) (vs : list (visit A)) :
  (forall a, func a = Returned) -> c.1 <> 0 ->
  apart_visits limit c.1 vs = true ->
  log (play thr (Called c.1 c.2 :: attended vs) (init_world thr))
  = Exec c.1 c.2 Direct :: map by_timer vs /\
  Host.pending
    (timers (play thr (Called c.1 c.2 :: attended vs) (init_world thr)))
  = [].
Proof.
  intros Hret Hc Hvs. destruct c as [t0 a0]. cbn [fst snd] in *.
  cbn [play].
  pose proof (throttle_first_call func limit t0 a0 (Hret a0)) as Hfirst.
  rewrite (advance_idle thr t0 (init_world thr) eq_refl) in Hfirst.
  rewrite Hfirst.
  apply (throttle_visits vs
           (World (Throttle.Vars None (Some t0)) Host.empty
                  [Exec t0 a0 Direct]) t0 Hret eq_refl Hc eq_refl Hvs).
Qed.
End ThrottlePace.

(** ** mergeObjects: what a call returns, and when it throws *)
Section MergeMore.
Implicit Types (h : list object) (o : object) (l : nat) (k key : string).







(** X8. When [target] is not an object and some property of [source] is
    one, the test [key in target] throws: the call ends in a TypeError,
    whatever the depth of recursion allowed (one call at least). *)
Theorem mergeObjects_target_not_object stack target source h k x :
  instanceof_Object target = false ->
  get_own k (own_props h source) = Some x -> instanceof_Object x = true ->
  mergeObjects (S stack) target source h = Throw TypeError.
Proof.
  intros Ht Hk Hx. cbn [mergeObjects].
  assert (for_in (merge_key (mergeObjects stack) target source)
            (map fst (own_props h source)) h = Throw TypeError) as ->;
    [|reflexivity].
  assert (In k (map fst (own_props h source))) as Hin.
  { clear -Hk. induction (own_props h source) as [|[k0 x0] ps IH]; [discriminate|].
    cbn in *. destruct (decide (k = k0)); auto. }
  assert (forall key, In key (map fst (own_props h source)) ->
            merge_key (mergeObjects stack) target source h key = Ok h \/
            merge_key (mergeObjects stack) target source h key = Throw TypeError)
    as Hstep.
  { intros key Hkey. apply has_own_keys in Hkey. unfold has_own in Hkey.
    destruct (get_own key (own_props h source)) as [y|] eqn:Hy; [|discriminate].
    unfold merge_key, get. destruct source; try discriminate; rewrite Hy; cbn;
      (destruct (instanceof_Object y); [|now left]);
      destruct target; try discriminate; now right. }
  assert (merge_key (mergeObjects stack) target source h k = Throw TypeError)
    as Hthrow.
  { unfold merge_key, get. destruct source; try discriminate; rewrite Hk; cbn;
      rewrite Hx; destruct target; try discriminate; reflexivity. }
  revert Hin Hstep. generalize (map fst (own_props h source)) as keys.
  induction keys as [|key keys IH]; intros Hin Hstep; [destruct Hin|].
  cbn [for_in].
  destruct (decide (key = k)) as [->|Hne].
  - now rewrite Hthrow.
  - destruct (Hstep key (or_introl eq_refl)) as [-> | ->]; [|reflexivity].
    cbn. apply IH.
    + destruct Hin as [Heq|Hin]; [congruence|assumption].
    + intros key' Hkey'. apply Hstep. now right.
Qed.

(** X9. When no property of [source] is an object the call is pure and
    cannot fail, whatever [target] is ([null] and [undefined] included):
    it returns the spread of the two in a new object and leaves every
    object of the caller as it was. *)
Theorem mergeObjects_flat_source_pure stack target source h :
  (forall k x, get_own k (own_props h source) = Some x ->
               instanceof_Object x = false) ->
  exists om,
    mergeObjects (S stack) target source h = Ok (VRef (length h), h ++ [om]) /\
    o_props om
    = assign_props (assign_props [] (own_props h target)) (own_props h source).
Proof.
  intros Hflat. rewrite (mergeObjects_flat stack target source h Hflat).
  eexists. split; reflexivity.
Qed.

(** X10. Objects that refer to themselves exhaust the stack: when the
    first property of [source] is [source] itself and the same property
    of [target] is [target] itself, the call ends in a RangeError at
    every depth of recursion the host allows. *)
Theorem mergeObjects_self_reference stack h t s k os ps ot :
  h !! s = Some os -> o_props os = (k, VRef s) :: ps ->
  h !! t = Some ot -> get_own k (o_props ot) = Some (VRef t) ->
  mergeObjects stack (VRef t) (VRef s) h = Throw RangeError.
Proof.
  intros Hs Hps Ht Hk.
  assert (own_props h (VRef s) = (k, VRef s) :: ps) as Hown
    by (cbn; rewrite Hs; exact Hps).
  assert (get h (VRef s) k = Ok (VRef s)) as Hgs.
  { unfold get. rewrite Hown. cbn. now destruct (decide (k = k)). }
  assert (has_property h (VRef t) k = Ok true) as Hhas.
  { unfold has_property, has_own. cbn. rewrite Ht. cbn. now rewrite Hk. }
  assert (get h (VRef t) k = Ok (VRef t)) as Hgt.
  { unfold get. cbn. rewrite Ht. cbn. now rewrite Hk. }
  induction stack as [|stack IH]; [reflexivity|].
  cbn [mergeObjects]. rewrite Hown. cbn [map fst for_in].
  assert (merge_key (mergeObjects stack) (VRef t) (VRef s) h k
          = Throw RangeError) as ->; [|reflexivity].
  unfold merge_key. rewrite Hgs. cbn [mbind res_bind instanceof_Object].
  rewrite Hhas. cbn [mbind res_bind]. rewrite Hgt. cbn [mbind res_bind].
  now rewrite IH.
Qed.

End MergeMore.

(** ** The UI helpers of vanilla-js-library.js *)
Section UIFacts.
Import UI.
Variable select : list node -> string -> option (list nat).
Implicit Types (p : page) (nd : node) (cls sel : string).

(** X12. For a selector that matches nothing [querySelector] warns and
    returns [null], but [querySelectorAll] never does: its test
    [!selectedElement.length === 0] compares a boolean with a number and
    is false for every list, so for every valid selector it returns the
    node list, empty or not, and logs it as saved. *)
Theorem querySelectorAll_never_null sel p ns :
  select (nodes p) sel = Some ns ->
  querySelectorAll select (JStr sel) p
  = Return (JNodeList ns) (console_log (NodeListSaved sel) p) /\
  (ns = [] ->
   querySelector select (JStr sel) p
   = Return JNull (console_warn (NoElementFound sel) p)).
Proof.
  intros Hsel. split.
  - unfold querySelectorAll, document_querySelectorAll. now rewrite Hsel.
  - intros ->. unfold querySelector, document_querySelector. now rewrite Hsel.
Qed.

Lemma html_element_node p element n nd :
  html_element p element = Some (n, nd) ->
  element = JElem n /\ nodes p !! n = Some nd /\ is_html nd = true.
Proof.
  unfold html_element. destruct element; try discriminate.
  destruct (nodes p !! _) as [nd0|] eqn:Hn; [|discriminate].
  destruct (is_html nd0) eqn:Hh; [|discriminate].
  now intros [= <- <-].
Qed.

(** X13. The guard of [addClass] refuses the empty string only, before
    the class name is trimmed: for an HTML element, a class name that is
    not empty but all white space ends in the SyntaxError of
    [classList.add], and one with white space inside ends in its
    InvalidCharacterError; the page is left as it was. *)
Theorem addClass_blank_class_throws p element n nd cls :
  html_element p element = Some (n, nd) -> cls <> EmptyString ->
  (trim cls = EmptyString ->
   addClass element (JStr cls) p = Raise SyntaxError p) /\
  (trim cls <> EmptyString -> has_dom_space (trim cls) = true ->
   addClass element (JStr cls) p = Raise InvalidCharacterError p).
Proof.
  intros Hel Hne. unfold addClass. rewrite Hel. cbn [strict_eq].
  rewrite (bool_decide_eq_false_2 (cls = EmptyString)) by assumption.
  unfold classList_add. split.
  - intros ->. reflexivity.
  - intros Ht Hsp.
    rewrite (bool_decide_eq_false_2 (trim cls = EmptyString)) by assumption.
    now rewrite Hsp.
Qed.

Lemma existsb_token token (l : list string) :
  existsb (fun c => bool_decide (c = token)) l = true <-> In token l.
Proof.
  rewrite existsb_exists. split.
  - intros (c & Hin & Hc). apply bool_decide_eq_true in Hc. now subst.
  - intros Hin. exists token. split; [assumption|].
    now apply bool_decide_eq_true.
Qed.

(** X14. For an HTML element and a class name that, once trimmed, is a
    single token, [addClass] returns [this] (the library object, not the
    element) and the element has the trimmed name in its class list,
    after the classes it had; no other element changes, and a second
    call with the same arguments changes no element. *)
Theorem addClass_adds_token p element n nd cls :
  html_element p element = Some (n, nd) -> cls <> EmptyString ->
  trim cls <> EmptyString -> has_dom_space (trim cls) = false ->
  exists p' nd',
    addClass element (JStr cls) p = Return JThis p' /\
    nodes p' !! n = Some nd' /\
    In (trim cls) (classList nd') /\
    (classList nd' = classList nd \/
     classList nd' = classList nd ++ [trim cls]) /\
    (forall m, m <> n -> nodes p' !! m = nodes p !! m) /\
    exists p'',
      addClass element (JStr cls) p' = Return JThis p'' /\
      nodes p'' = nodes p'.
Proof.
  intros Hel Hne Ht Hsp.
  destruct (html_element_node _ _ _ _ Hel) as (-> & Hn & Hh).
  assert (n < length (nodes p))%nat as Hlt by (eapply lookup_lt_Some, Hn).
  assert (exists nd',
    classList_add (trim cls) nd = inr nd' /\ is_html nd' = true /\
    In (trim cls) (classList nd') /\
    (classList nd' = classList nd \/
     classList nd' = classList nd ++ [trim cls]) /\
    classList_add (trim cls) nd' = inr nd') as (nd' & Hadd & Hh' & Hin & Hcl & Hagain).
  { assert (bool_decide (trim cls = EmptyString) = false) as Hb
      by (now apply bool_decide_eq_false_2).
    unfold classList_add. rewrite Hb, Hsp.
    destruct (existsb _ (classList nd)) eqn:Hex.
    - exists nd. rewrite Hex. repeat split; auto. now apply existsb_token.
    - eexists. split; [reflexivity|]. cbn.
      assert (In (trim cls) (classList nd ++ [trim cls])) as Hin
        by (apply in_or_app; right; now left).
      rewrite (proj2 (existsb_token _ _) Hin). repeat split; auto. }
  assert (bool_decide (cls = EmptyString) = false) as Hb
    by (now apply bool_decide_eq_false_2).
  exists (console_log (ClassAdded cls (tagName nd))
            (Page (<[n := nd']> (nodes p)) (console p))), nd'.
  unfold addClass at 1. rewrite Hel. cbn [strict_eq]. rewrite Hb, Hadd.
  split; [reflexivity|]. cbn [console_log nodes].
  split; [now apply list_lookup_insert_eq|].
  split; [assumption|]. split; [assumption|].
  split; [intros m Hm; now apply list_lookup_insert_ne|].
  eexists. unfold addClass, html_element. cbn [console_log nodes].
  rewrite list_lookup_insert_eq by assumption. rewrite Hh'. cbn [strict_eq].
  rewrite Hb, Hagain.
  split; [reflexivity|]. cbn. now rewrite list_insert_insert_eq.
Qed.

(** X15. The statements that end the file never throw when the host
    accepts the selector [h1]: with no [h1] in the document, or one that
    is not an HTML element, [querySelector] or the guard of [addClass]
    warns and no element changes; with an HTML [h1], the first one gets
    the class [newClass] and no other element changes. *)
Theorem script_adds_newClass p ns :
  select (nodes p) "h1" = Some ns ->
  exists p',
    script select p = Return JThis p' /\
    (forall m, head ns <> Some m -> nodes p' !! m = nodes p !! m) /\
    (forall n nd, head ns = Some n -> nodes p !! n = Some nd ->
       if is_html nd
       then exists nd', nodes p' !! n = Some nd' /\
                        In "newClass" (classList nd')
       else nodes p' = nodes p).
Proof.
  intros Hsel. unfold script, querySelector, document_querySelector.
  cbn [console_log nodes]. rewrite Hsel.
  destruct ns as [|n ns]; cbn [truthy negb head].
  - eexists. unfold addClass. cbn. split; [reflexivity|].
    split; [reflexivity|discriminate].
  - match goal with |- context [addClass _ _ ?q] => set (p1 := q) end.
    assert (nodes p1 = nodes p) as Hnodes by reflexivity.
    destruct (html_element p1 (JElem n)) as [[n' nd]|] eqn:Hel.
    + destruct (html_element_node _ _ _ _ Hel) as (Heq & Hn & Hh).
      injection Heq as <-.
      destruct (addClass_adds_token p1 (JElem n) n nd "newClass" Hel)
        as (p' & nd' & Hcall & Hn' & Hin & _ & Hother & _);
        [discriminate|discriminate|reflexivity|].
      exists p'. split; [exact Hcall|]. split.
      * intros m Hm. rewrite <- Hnodes. apply Hother. congruence.
      * intros n0 nd0 [= <-] Hn0. rewrite Hnodes, Hn0 in Hn.
        injection Hn as ->. rewrite Hh. eauto.
    + eexists. unfold addClass. rewrite Hel. split; [reflexivity|].
      split; [reflexivity|].
      intros n0 nd0 [= <-] Hn0. unfold html_element in Hel.
      rewrite Hnodes, Hn0 in Hel.
      destruct (is_html nd0); [discriminate|reflexivity].
Qed.
End UIFacts.

(** ** The event methods of extendElement *)
Section EventFacts.
Import Events.
Context {E : Type}.
Variable func : nat -> outcome E.
Implicit Types (t : target) (ev : string) (h : handler).

Lemma dispatch_app l1 l2 ev t :
  dispatch func (l1 ++ l2) ev t = dispatch func l2 ev (dispatch func l1 ev t).
Proof.
  revert t. induction l1 as [|[ty h] l1 IH]; intros t; [reflexivity|].
  cbn. apply IH.
Qed.

Lemma dispatch_deaf l ev t :
  Forall (fun x => x.1 <> ev) l -> dispatch func l ev t = t.
Proof.
  revert t. induction l as [|[ty h] l IH]; intros t Hl; [reflexivity|].
  inversion Hl as [|? ? Hty Hrest]; subst. cbn in Hty |- *.
  rewrite (bool_decide_eq_false_2 (ty = ev)) by assumption. cbn.
  now apply IH.
Qed.

Lemma not_registered_deaf ev h t : deaf ev t -> registered ev h t = false.
Proof.
  unfold deaf, registered. intros Hd.
  induction (listeners t) as [|[ty h0] l IH]; [reflexivity|].
  inversion Hd as [|? ? Hty Hrest]; subst. cbn in Hty |- *.
  rewrite bool_decide_eq_false_2 by congruence. cbn. now apply IH.
Qed.

Lemma filter_deaf ev h (l : list (string * handler)) :
  Forall (fun x => x.1 <> ev) l ->
  List.filter (fun x => negb (bool_decide (x = (ev, h)))) l = l.
Proof.
  induction l as [|[ty h0] l IH]; intros Hl; [reflexivity|].
  inversion Hl as [|? ? Hty Hrest]; subst. cbn in Hty |- *.
  rewrite bool_decide_eq_false_2 by congruence. cbn. now rewrite IH.
Qed.

Lemma registered_last ev h l n r :
  registered ev h (Target (l ++ [(ev, h)]) n r) = true.
Proof.
  unfold registered. cbn. rewrite existsb_app. cbn.
  rewrite bool_decide_eq_true_2 by reflexivity. now rewrite orb_true_r.
Qed.

Lemma filter_last ev h (l : list (string * handler)) :
  Forall (fun x => x.1 <> ev) l ->
  List.filter (fun x => negb (bool_decide (x = (ev, h)))) (l ++ [(ev, h)]) = l.
Proof.
  intros Hl. rewrite List.filter_app, (filter_deaf ev h l Hl). cbn.
  rewrite bool_decide_eq_true_2 by reflexivity. cbn. apply app_nil_r.
Qed.

Lemma registered_in ev h t :
  registered ev h t = true <-> In (ev, h) (listeners t).
Proof.
  unfold registered. rewrite existsb_exists. split.
  - intros (x & Hin & Hx). apply bool_decide_eq_true in Hx. now subst.
  - intros Hin. exists (ev, h). split; [assumption|].
    now apply bool_decide_eq_true.
Qed.

Lemma not_registered_in ev h t :
  registered ev h t = false <-> ~ In (ev, h) (listeners t).
Proof.
  rewrite <- registered_in. now destruct (registered ev h t).
Qed.

Lemma ran_call_listener ev cb serial t :
  ran (call_listener func ev (OnceOf cb serial) t) = ran t ++ [(ev, cb)].
Proof. cbn. now destruct (func cb). Qed.

(** A listener other than the one called is still there after the call. *)
Lemma listeners_call_listener ev h t x :
  In x (listeners t) -> x <> (ev, h) ->
  In x (listeners (call_listener func ev h t)).
Proof.
  intros Hin Hne. destruct h as [cb|cb serial]; cbn; [assumption|].
  destruct (func cb); cbn; [|assumption].
  apply filter_In. split; [assumption|].
  now rewrite bool_decide_eq_false_2.
Qed.

(** What [once] leaves on an element with no listener for the type. *)
Lemma once_deaf ev cb t :
  deaf ev t ->
  once ev cb t
  = Target (listeners t ++ [(ev, OnceOf cb (closures t))])
           (S (closures t)) (ran t).
Proof.
  intros Hd. unfold once, addEventListener.
  assert (registered ev (OnceOf cb (closures t))
            (Target (listeners t) (S (closures t)) (ran t)) = false) as ->
    by (now apply not_registered_deaf).
  reflexivity.
Qed.

(** One dispatch to the listeners [l ++ [(ev, h)]], [l] having none for
    the type. *)
Lemma trigger_last ev h l n r :
  Forall (fun x => x.1 <> ev) l ->
  trigger func ev (Target (l ++ [(ev, h)]) n r)
  = call_listener func ev h (Target (l ++ [(ev, h)]) n r).
Proof.
  intros Hl. unfold trigger. cbn [listeners].
  rewrite dispatch_app, (dispatch_deaf l ev _ Hl). cbn [dispatch].
  rewrite (bool_decide_eq_true_2 (ev = ev)) by reflexivity.
  now rewrite registered_last.
Qed.

Lemma iter_step (f : target -> target) n t :
  Nat.iter (S n) f t = f (Nat.iter n f t).
Proof. reflexivity. Qed.

(** X16. [once]: on an element with no other listener for the type, a
    callback that returns is run by the first [trigger] and by no later
    one, and the element is left without the listener. *)
Theorem once_runs_once ev cb t n :
  deaf ev t -> func cb = Returned ->
  Nat.iter (S n) (trigger func ev) (once ev cb t)
  = Target (listeners t) (S (closures t)) (ran t ++ [(ev, cb)]).
Proof.
  intros Hd Hret. rewrite (once_deaf ev cb t Hd).
  induction n as [|n IH].
  - rewrite iter_step. cbn [Nat.iter nat_rect].
    rewrite (trigger_last _ _ _ _ _ Hd).
    cbn. rewrite Hret. unfold removeEventListener. cbn.
    now rewrite (filter_last _ _ _ Hd).
  - rewrite iter_step, IH. unfold trigger. cbn. now apply dispatch_deaf.
Qed.

(** X17. [once] with a callback that throws: the removal that follows the
    call in the closure is skipped, so the listener stays and the
    callback is run again by every [trigger]. *)
Theorem once_throwing_stays ev cb t n x :
  deaf ev t -> func cb = Threw x ->
  Nat.iter n (trigger func ev) (once ev cb t)
  = Target (listeners t ++ [(ev, OnceOf cb (closures t))])
           (S (closures t)) (ran t ++ repeat (ev, cb) n).
Proof.
  intros Hd Hthrow. rewrite (once_deaf ev cb t Hd).
  induction n as [|n IH].
  - cbn. now rewrite app_nil_r.
  - rewrite iter_step, IH, (trigger_last _ _ _ _ _ Hd).
    cbn. rewrite Hthrow. f_equal. rewrite <- app_assoc. f_equal.
    symmetry. apply repeat_cons.
Qed.

(** X18. [off] removes what [on] added, but not what [once] added: the
    listener [once] registers is its own closure, not the callback, so
    after [off] with the callback a [trigger] still runs it. *)
Theorem off_removes_on_not_once ev cb t :
  deaf ev t ->
  trigger func ev (off ev cb (on ev cb t)) = t /\
  ran (trigger func ev (off ev cb (once ev cb t))) = ran t ++ [(ev, cb)].
Proof.
  intros Hd. split.
  - unfold on, off, addEventListener.
    rewrite (not_registered_deaf ev (Plain cb) t Hd).
    unfold removeEventListener. cbn. rewrite (filter_last _ _ _ Hd).
    unfold trigger. cbn. rewrite (dispatch_deaf _ ev _ Hd). now destruct t.
  - assert (off ev cb (once ev cb t) = once ev cb t) as ->.
    { rewrite (once_deaf ev cb t Hd). unfold off, removeEventListener.
      cbn [listeners closures ran].
      rewrite List.filter_app, (filter_deaf ev (Plain cb) _ Hd). cbn.
      now rewrite bool_decide_eq_false_2 by congruence. }
    rewrite (once_deaf ev cb t Hd), (trigger_last _ _ _ _ _ Hd). cbn.
    destruct (func cb); reflexivity.
Qed.

(** X19. Adding the same callback twice with [on] registers it once (the
    host keeps one listener per function), so a [trigger] runs it once;
    adding it twice with [once] makes two closures, and the first
    [trigger] runs the callback twice. *)
Theorem on_twice_once_twice ev cb t :
  deaf ev t ->
  on ev cb (on ev cb t) = on ev cb t /\
  ran (trigger func ev (on ev cb t)) = ran t ++ [(ev, cb)] /\
  ran (trigger func ev (once ev cb (once ev cb t)))
  = ran t ++ [(ev, cb); (ev, cb)].
Proof.
  intros Hd.
  assert (on ev cb t = Target (listeners t ++ [(ev, Plain cb)]) (closures t) (ran t))
    as Hon.
  { unfold on, addEventListener.
    now rewrite (not_registered_deaf ev (Plain cb) t Hd). }
  repeat split.
  - rewrite Hon. unfold on, addEventListener. now rewrite registered_last.
  - rewrite Hon, (trigger_last _ _ _ _ _ Hd). reflexivity.
  - rewrite (once_deaf ev cb t Hd).
    assert (once ev cb
              (Target (listeners t ++ [(ev, OnceOf cb (closures t))])
                      (S (closures t)) (ran t))
            = Target (listeners t ++ [(ev, OnceOf cb (closures t));
                                      (ev, OnceOf cb (S (closures t)))])
                     (S (S (closures t))) (ran t)) as ->.
    { unfold once, addEventListener. cbn [listeners closures ran].
      rewrite (proj2 (not_registered_in _ _ _)).
      - now rewrite <- app_assoc.
      - cbn. intros [Hin|[Heq|[]]]%in_app_or.
        + unfold deaf in Hd. rewrite List.Forall_forall in Hd.
          now apply (Hd _ Hin).
        + injection Heq as Heq. lia. }
    set (a := OnceOf cb (closures t)). set (b := OnceOf cb (S (closures t))).
    set (T := Target (listeners t ++ [(ev, a); (ev, b)])
                     (S (S (closures t))) (ran t)).
    unfold trigger. cbn [listeners T].
    rewrite dispatch_app, (dispatch_deaf _ ev _ Hd). fold T. cbn [dispatch].
    rewrite (bool_decide_eq_true_2 (ev = ev)) by reflexivity.
    rewrite (proj2 (registered_in ev a T))
      by (cbn; apply in_or_app; right; now left).
    cbn [andb].
    rewrite (proj2 (registered_in ev b (call_listener func ev a T))).
    + cbn [andb]. unfold a, b. now rewrite !ran_call_listener, <- app_assoc.
    + apply listeners_call_listener; [|intros [= Heq]; lia].
      cbn. apply in_or_app. right. right. now left.
Qed.
End EventFacts.

(** * The further properties at concrete inputs *)

(** Calls at 0, 100 and 200 to a function debounced by 50 ms, whose
    timers the host runs at 50, 170 (late) and 250. *)
Lemma debounce_far_calls_all_run_witness :
  log (play (Debounce.debounce returning 50)
         (attended [Visit 0 0%nat 50; Visit 100 1%nat 170; Visit 200 2%nat 250])
         (init_world (Debounce.debounce returning 50)))
  = [Exec 50 0%nat Scheduled; Exec 170 1%nat Scheduled;
     Exec 250 2%nat Scheduled].
Proof.
  apply (debounce_far_calls_all_run returning 50
           [Visit 0 0%nat 50; Visit 100 1%nat 170; Visit 200 2%nat 250]);
    [lia|reflexivity].
Defined.

Lemma debounce_executions_from_calls_witness :
  exists c, In c [(0, 0%nat); (10, 1%nat)] /\
            c.2 = 1%nat /\ c.1 <= 60.
Proof.
  apply (proj2 (debounce_executions_from_calls returning 50
                  [(0, 0%nat); (10, 1%nat)]) (Exec 60 1%nat Scheduled)).
  now left.
Defined.

Lemma throttle_executions_from_calls_witness :
  exists c, In c [(1000, 0%nat); (1030, 1%nat)] /\
            c.2 = 0%nat /\ c.1 <= 1000.
Proof.
  apply (proj2 (throttle_executions_from_calls returning 100
                  [(1000, 0%nat); (1030, 1%nat)]) (Exec 1000 0%nat Direct)).
  now left.
Defined.

(** [throttle(fn, 100)] called at 1000, 1100 and 1200 with the clock
    value as argument, the timer of the second call running late, at 1150:
    the executions, at 1000, 1150 and 1200, are for calls 100 apart. *)
Lemma throttle_served_calls_spaced_witness :
  Forall (stamped Z.of_nat)
    [Called 1000 1000%nat; Called 1100 1100%nat; TimerRun 1150;
     Called 1200 1200%nat; TimerRun 1200] /\
  log (play (Throttle.throttle returning 100)
         [Called 1000 1000%nat; Called 1100 1100%nat; TimerRun 1150;
          Called 1200 1200%nat; TimerRun 1200]
         (init_world (Throttle.throttle returning 100)))
  = [Exec 1000 1000%nat Direct; Exec 1150 1100%nat Scheduled;
     Exec 1200 1200%nat Scheduled] /\
  spaced 100
    (map (fun e => Z.of_nat (ex_args e))
       (log (play (Throttle.throttle returning 100)
               [Called 1000 1000%nat; Called 1100 1100%nat; TimerRun 1150;
                Called 1200 1200%nat; TimerRun 1200]
               (init_world (Throttle.throttle returning 100)))))
  = true.
Proof.
  assert (Forall (stamped Z.of_nat)
            [Called 1000 1000%nat; Called 1100 1100%nat; TimerRun 1150;
             Called 1200 1200%nat; TimerRun 1200]) as Hst
    by (repeat constructor; cbn; lia).
  split; [exact Hst|]. split; [reflexivity|].
  apply (throttle_served_calls_spaced returning 100 Z.of_nat);
    [reflexivity|exact Hst].
Defined.

(** Calls at 1000, 1100 and 1250, the host running the timers of the last
    two at 1100 and 1260. *)
Lemma throttle_apart_calls_all_run_witness :
  log (play (Throttle.throttle returning 100)
         (Called 1000 0%nat
          :: attended [Visit 1100 1%nat 1100; Visit 1250 2%nat 1260])
         (init_world (Throttle.throttle returning 100)))
  = [Exec 1000 0%nat Direct; Exec 1100 1%nat Scheduled;
     Exec 1260 2%nat Scheduled].
Proof.
  apply (throttle_apart_calls_all_run returning 100 (1000, 0%nat)
           [Visit 1100 1%nat 1100; Visit 1250 2%nat 1260]);
    [reflexivity|cbn; lia|reflexivity].
Defined.



Lemma mergeObjects_target_not_object_witness :
  mergeObjects 1 VUndefined (VRef 1%nat) sample_store = Throw TypeError.
Proof.
  apply (mergeObjects_target_not_object 0 VUndefined (VRef 1%nat) sample_store
           "a" (VRef 3%nat)); reflexivity.
Defined.

Lemma mergeObjects_flat_source_pure_witness :
  exists om,
    mergeObjects 1 VNull (VRef 3%nat) sample_store
    = Ok (VRef 4%nat, sample_store ++ [om]) /\
    o_props om = [("x", VNum 1)].
Proof.
  apply (mergeObjects_flat_source_pure 0 VNull (VRef 3%nat) sample_store).
  intros k x. cbn. destruct (decide (k = "x")); [|discriminate].
  now intros [= <-].
Defined.

Lemma mergeObjects_self_reference_witness :
  mergeObjects 1000 (VRef 0%nat) (VRef 1%nat) looping_store = Throw RangeError.
Proof.
  apply (mergeObjects_self_reference 1000 looping_store 0 1 "a"
           (Obj false [("a", VRef 1%nat)]) []
           (Obj false [("a", VRef 0%nat)])); reflexivity.
Defined.


Lemma querySelectorAll_never_null_witness :
  UI.querySelectorAll heading_select (UI.JStr "p") heading_page
  = UI.Return (UI.JNodeList [])
      (UI.console_log (UI.NodeListSaved "p") heading_page) /\
  (@nil nat = [] ->
   UI.querySelector heading_select (UI.JStr "p") heading_page
   = UI.Return UI.JNull
       (UI.console_warn (UI.NoElementFound "p") heading_page)).
Proof.
  exact (querySelectorAll_never_null heading_select "p" heading_page []
           eq_refl).
Defined.

Lemma addClass_blank_class_throws_witness :
  UI.addClass (UI.JElem 0) (UI.JStr " ") heading_page
  = UI.Raise UI.SyntaxError heading_page /\
  UI.addClass (UI.JElem 0) (UI.JStr "big bold") heading_page
  = UI.Raise UI.InvalidCharacterError heading_page.
Proof.
  split.
  - apply (proj1 (addClass_blank_class_throws heading_page (UI.JElem 0) 0
                    (UI.Node "H1" true ["title"]) " " eq_refl
                    ltac:(discriminate))).
    reflexivity.
  - apply (proj2 (addClass_blank_class_throws heading_page (UI.JElem 0) 0
                    (UI.Node "H1" true ["title"]) "big bold" eq_refl
                    ltac:(discriminate)));
      [discriminate|reflexivity].
Defined.

Lemma addClass_adds_token_witness :
  exists p' nd',
    UI.addClass (UI.JElem 0) (UI.JStr " big ") heading_page
    = UI.Return UI.JThis p' /\
    UI.nodes p' !! 0%nat = Some nd' /\
    In (UI.trim " big ") (UI.classList nd') /\
    (UI.classList nd' = ["title"] \/
     UI.classList nd' = ["title"] ++ [UI.trim " big "]) /\
    (forall m, m <> 0%nat -> UI.nodes p' !! m = UI.nodes heading_page !! m) /\
    exists p'',
      UI.addClass (UI.JElem 0) (UI.JStr " big ") p' = UI.Return UI.JThis p'' /\
      UI.nodes p'' = UI.nodes p'.
Proof.
  apply (addClass_adds_token heading_page (UI.JElem 0) 0
           (UI.Node "H1" true ["title"]) " big ");
    [reflexivity|discriminate|discriminate|reflexivity].
Defined.

Lemma script_adds_newClass_witness :
  exists p',
    UI.script heading_select heading_page = UI.Return UI.JThis p' /\
    (forall m, head [0%nat] <> Some m ->
       UI.nodes p' !! m = UI.nodes heading_page !! m) /\
    (forall n nd, head [0%nat] = Some n ->
       UI.nodes heading_page !! n = Some nd ->
       if UI.is_html nd
       then exists nd', UI.nodes p' !! n = Some nd' /\
                        In "newClass" (UI.classList nd')
       else UI.nodes p' = UI.nodes heading_page).
Proof.
  exact (script_adds_newClass heading_select heading_page [0%nat] eq_refl).
Defined.

Lemma silent_deaf : deaf "click" silent.
Proof. constructor. Defined.

Lemma once_runs_once_witness :
  Nat.iter 3 (Events.trigger returning "click") (Events.once "click" 7 silent)
  = Events.Target [] 1 [("click", 7%nat)].
Proof.
  exact (once_runs_once returning "click" 7 silent 2 silent_deaf eq_refl).
Defined.

Lemma once_throwing_stays_witness :
  Nat.iter 3 (Events.trigger throwing "click") (Events.once "click" 7 silent)
  = Events.Target [("click", Events.OnceOf 7 0)] 1
      [("click", 7%nat); ("click", 7%nat); ("click", 7%nat)].
Proof.
  exact (once_throwing_stays throwing "click" 7 silent 3 tt silent_deaf eq_refl).
Defined.

Lemma off_removes_on_not_once_witness :
  Events.trigger returning "click"
    (Events.off "click" 7 (Events.on "click" 7 silent)) = silent /\
  Events.ran (Events.trigger returning "click"
    (Events.off "click" 7 (Events.once "click" 7 silent)))
  = [("click", 7%nat)].
Proof.
  exact (off_removes_on_not_once returning "click" 7 silent silent_deaf).
Defined.

Lemma on_twice_once_twice_witness :
  Events.on "click" 7 (Events.on "click" 7 silent) = Events.on "click" 7 silent /\
  Events.ran (Events.trigger returning "click" (Events.on "click" 7 silent))
  = [("click", 7%nat)] /\
  Events.ran (Events.trigger returning "click"
    (Events.once "click" 7 (Events.once "click" 7 silent)))
  = [("click", 7%nat); ("click", 7%nat)].
Proof.
  exact (on_twice_once_twice returning "click" 7 silent silent_deaf).
Defined.
